(** * cpp-introductory-examples: a shallow embedding of the example programs

  Each example program of the repository is a standalone [main].  The
  development below embeds the functions and the parts of each [main]
  that the specification talks about, and proves the properties the
  specification states about them.

  Conventions of the embedding:
  - [int] is a 32-bit two's-complement integer, carried as a [Z] and
    brought back into range by [to_int] after every arithmetic
    operation; [unsigned short] is 16 bits wide ([to_ushort]);
  - objects whose identity matters (captured variables, closure members,
    heap allocations) live in a store [gmap loc Z];
  - console output is a list of tokens, console input a list of
    characters together with the stream's fail flag;
  - signed overflow wraps around, as the two's-complement hardware does;
  - an access to an object that is not there (past the elements of a
    vector, after the end of a lifetime) is an explicit outcome,
    [Undefined], never a value. *)

From Stdlib Require Import ZArith Zquot Lia Ascii String.
From stdpp Require Import gmap strings list.

Local Open Scope Z_scope.

(** ** Machine integers *)

Module CInt.

Definition INT_MIN : Z := - 2 ^ 31.
Definition INT_MAX : Z := 2 ^ 31 - 1.
Definition USHRT_MAX : Z := 2 ^ 16 - 1.

Definition in_int (z : Z) : Prop := INT_MIN <= z <= INT_MAX.

(** Reduction of a mathematical integer to the [int] range
    (two's complement, modulo 2^32). *)
Definition to_int (z : Z) : Z := (z + 2 ^ 31) mod 2 ^ 32 - 2 ^ 31.

(** Conversion to [unsigned short int]: the value modulo 2^16. *)
Definition to_ushort (z : Z) : Z := z mod 2 ^ 16.

Definition int_add (x y : Z) : Z := to_int (x + y).
Definition int_mul (x y : Z) : Z := to_int (x * y).

(** [++v] and [--v] on an [int]. *)
Definition int_incr (v : Z) : Z := to_int (v + 1).
Definition int_decr (v : Z) : Z := to_int (v - 1).

End CInt.

Export CInt.

(** ** Console *)

Module Console.

(** What is sent to an output stream: an integer, a piece of text, or
    [std::endl]. *)
Inductive token : Type :=
| TInt (z : Z)
| TStr (s : string)
| TEndl.

Record console : Type := mkConsole {
  cout : list token;
  cerr : list token;
  cin : list ascii;       (* characters not yet extracted *)
  cin_fail : bool;        (* the stream is not in a good state *)
  extractions : nat       (* how many times operator>> was applied *)
}.

Definition console_of_input (s : string) : console :=
  mkConsole [] [] (list_ascii_of_string s) false 0.

(** A console on which nothing was typed. *)
Definition no_input : console := mkConsole [] [] [] false 0.

Definition print (ts : list token) (c : console) : console :=
  mkConsole (cout c ++ ts) (cerr c) (cin c) (cin_fail c) (extractions c).

Definition print_err (ts : list token) (c : console) : console :=
  mkConsole (cout c) (cerr c ++ ts) (cin c) (cin_fail c) (extractions c).

Definition isspace (a : ascii) : bool :=
  let n := nat_of_ascii a in
  (n =? 32)%nat || ((9 <=? n)%nat && (n <=? 13)%nat).

Definition isdigit (a : ascii) : bool :=
  let n := nat_of_ascii a in (48 <=? n)%nat && (n <=? 57)%nat.

Definition digit_value (a : ascii) : Z := Z.of_nat (nat_of_ascii a) - 48.

Fixpoint skipws (s : list ascii) : list ascii :=
  match s with
  | a :: s' => if isspace a then skipws s' else s
  | [] => []
  end.

(** The longest prefix of decimal digits, accumulated into a number,
    with the count of digits read and the characters left. *)
Fixpoint read_digits (acc : Z) (count : nat) (s : list ascii)
  : Z * nat * list ascii :=
  match s with
  | a :: s' =>
      if isdigit a then read_digits (10 * acc + digit_value a) (S count) s'
      else (acc, count, s)
  | [] => (acc, count, [])
  end.

(** An optional sign: the multiplier and the characters after it. *)
Definition read_sign (s : list ascii) : Z * list ascii :=
  match s with
  | a :: s' =>
      if (nat_of_ascii a =? 45)%nat then (-1, s')
      else if (nat_of_ascii a =? 43)%nat then (1, s')
      else (1, s)
  | [] => (1, [])
  end.

(** [std::cin >> v] for an [int] object holding [v], following the
    extraction flow the examples document:
    1. a stream that is not in a good state attempts no extraction;
    2. leading whitespace is discarded;
    3. with nothing left to read the extraction cannot start;
    4. as many characters as form a number are taken; when there are
       none, the object is assigned 0 and the stream fails, so that
       every later extraction fails immediately.
    A number outside the range of [int] stores the nearest bound and
    fails the stream as well. *)
Definition extract_int (v : Z) (c : console) : Z * console :=
  let n := S (extractions c) in
  if cin_fail c then (v, mkConsole (cout c) (cerr c) (cin c) true n)
  else
    match skipws (cin c) with
    | [] => (v, mkConsole (cout c) (cerr c) [] true n)
    | s =>
        let '(sign, s1) := read_sign s in
        let '(magnitude, count, rest) := read_digits 0 0 s1 in
        match count with
        | O => (0, mkConsole (cout c) (cerr c) rest true n)
        | S _ =>
            let value := sign * magnitude in
            if value <? INT_MIN
            then (INT_MIN, mkConsole (cout c) (cerr c) rest true n)
            else if INT_MAX <? value
            then (INT_MAX, mkConsole (cout c) (cerr c) rest true n)
            else (value, mkConsole (cout c) (cerr c) rest false n)
        end
    end.

(** Input on which an integer extraction cannot produce a number: after
    the leading whitespace there is neither a digit nor a sign followed
    by a digit. *)
Definition starts_with_number (s : list ascii) : bool :=
  match skipws s with
  | a :: rest =>
      if isdigit a then true
      else if (nat_of_ascii a =? 45)%nat || (nat_of_ascii a =? 43)%nat
      then match rest with
           | b :: _ => isdigit b
           | [] => false
           end
      else false
  | [] => false
  end.

Definition malformed (c : console) : Prop :=
  cin_fail c = true \/ starts_with_number (cin c) = false.

End Console.

Export Console.

(** ** Ex11FunctionReturnValues and Ex13FunctionParameters *)

Module FunctionExamples.

(** [getValueFromUser]: prompt, value-initialise [input], extract once,
    return [input]. *)
Definition getValueFromUser (c : console) : Z * console :=
  let c1 := print [TStr "Enter an integer: "] c in
  let input := 0 in
  extract_int input c1.

Definition printDouble (value : Z) (c : console) : console :=
  print [TInt value; TStr " doubled is: "; TInt (int_mul value 2);
         TStr "\n"] c.

Definition add (x y : Z) : Z := int_add x y.

Definition multiply (x y : Z) : Z := int_mul x y.

Definition doSomething (_ : Z) (c : console) : console :=
  print [TStr "Called doSomething()...\n"] c.

(** [main] of Ex11FunctionReturnValues. *)
Definition main_return_values (c : console) : Z * console :=
  let '(num, c1) := getValueFromUser c in
  (0, print [TInt num; TStr " doubled is: "; TInt (int_mul num 2);
             TStr "\n"] c1).

(** [main] of Ex13FunctionParameters. *)
Definition main_parameters (c : console) : Z * console :=
  let c1 := print [TStr "printDouble() example...\n"] c in
  let '(v, c2) := getValueFromUser c1 in
  let c3 := printDouble v c2 in
  let c4 := print [TStr "Math examples...\n"] c3 in
  let x := 2 in
  let y := 3 in
  let c5 := print [TInt x; TStr " + "; TInt y; TStr " = "; TInt (add x y);
                   TStr "\n"] c4 in
  let c6 := print [TInt x; TStr " * "; TInt y; TStr " = ";
                   TInt (multiply x y); TStr "\n"] c5 in
  (0, doSomething 2 c6).

(** What [main] of Ex13FunctionParameters prints after the doubling
    example, whatever was typed. *)
Definition math_examples_output : list token :=
  [TStr "Math examples...\n";
   TInt 2; TStr " + "; TInt 3; TStr " = "; TInt 5; TStr "\n";
   TInt 2; TStr " * "; TInt 3; TStr " = "; TInt 6; TStr "\n";
   TStr "Called doSomething()...\n"].

End FunctionExamples.

(** ** The input/output example: repeated extractions from [std::cin] *)

Module InputOutput.

(** The part of [main] that reads: [y], then [a] and [b] in one
    statement, then [i] and [j] in two; every variable is
    value-initialised before its extraction. *)
Definition main_extractions (c : console) : list Z * console :=
  let y := 0 in
  let c1 := print [TStr "Enter a number: "] c in
  let '(y, c2) := extract_int y c1 in
  let c3 := print [TStr "You entered "; TInt y; TStr "\n"] c2 in
  let c4 := print [TStr "Enter two numbers separated by a space: "] c3 in
  let a := 0 in
  let b := 0 in
  let '(a, c5) := extract_int a c4 in
  let '(b, c6) := extract_int b c5 in
  let c7 := print [TStr "You entered "; TInt a; TStr " and "; TInt b;
                   TStr "\n"] c6 in
  let c8 := print [TStr "Enter two numbers: "] c7 in
  let i := 0 in
  let '(i, c9) := extract_int i c8 in
  let j := 0 in
  let '(j, c10) := extract_int j c9 in
  ([y; a; b; i; j],
   print [TStr "You entered "; TInt i; TStr " and "; TInt j; TStr "\n"] c10).

End InputOutput.

(** ** Execution with exceptions and undefined behaviour *)

Module Exec.

(** [std::out_of_range] as thrown by a checked access: the index asked
    for and the size it was checked against. *)
Inductive exception : Type :=
| out_of_range (n size : nat).

(** The text of [e.what()]. *)
Definition what (e : exception) : list token :=
  match e with
  | out_of_range n size =>
      [TStr "vector::_M_range_check: __n (which is "; TInt (Z.of_nat n);
       TStr ") >= this->size() (which is "; TInt (Z.of_nat size); TStr ")"]
  end.

(** A computation over a state [S] ends normally with a value, leaves
    through a thrown exception, or has undefined behaviour. *)
Inductive result (S A : Type) : Type :=
| Ok (a : A) (s : S)
| Raised (e : exception) (s : S)
| Undefined (s : S).

Arguments Ok {S A} a s.
Arguments Raised {S A} e s.
Arguments Undefined {S A} s.

Definition M (S A : Type) : Type := S -> result S A.

Definition ret {S A} (a : A) : M S A := fun s => Ok a s.

Definition bind {S A B} (c : M S A) (k : A -> M S B) : M S B :=
  fun s =>
    match c s with
    | Ok a s' => k a s'
    | Raised e s' => Raised e s'
    | Undefined s' => Undefined s'
    end.

Definition throw {S A} (e : exception) : M S A := fun s => Raised e s.

Definition undefined {S A} : M S A := fun s => Undefined s.

Definition get {S} : M S S := fun s => Ok s s.

Definition modify {S} (f : S -> S) : M S unit := fun s => Ok tt (f s).

(** [try { body } catch (const std::out_of_range &e) { handler e }]. *)
Definition try_catch {S A} (body : M S A) (handler : exception -> M S A)
  : M S A :=
  fun s =>
    match body s with
    | Raised e s' => handler e s'
    | r => r
    end.

(** The same statement [n] times in a row. *)
Fixpoint repeat_stmt {S} (n : nat) (c : M S unit) : M S unit :=
  match n with
  | O => ret tt
  | S n' => bind c (fun _ => repeat_stmt n' c)
  end.

(** A list of statements, one after the other. *)
Fixpoint sequence {S} (cs : list (M S unit)) : M S unit :=
  match cs with
  | [] => ret tt
  | c :: cs' => bind c (fun _ => sequence cs')
  end.

End Exec.

Export Exec.

Notation "'let*' x ':=' c 'in' k" := (bind c (fun x => k))
(at level 10, x pattern, c at level 100, k at level 200).
Notation "c1 ';;' c2" := (bind c1 (fun _ => c2))
(at level 100, c2 at level 200, right associativity).

(** ** [std::vector<int>] *)

Module Vector.

(** Contents and reserved capacity; [size] is the number of elements. *)
Record vector : Type := mkVector {
  elems : list Z;
  capacity : nat
}.

Definition size (v : vector) : nat := length (elems v).

(** Construction from an initializer list reserves exactly what the
    list needs. *)
Definition from_list (l : list Z) : vector := mkVector l (length l).

(** [push_back]: with room left the capacity stays; at capacity the
    storage is reallocated to [size + max(size, 1)], which is what the
    memory-layout example observes as the capacity doubling. *)
Definition push_back (x : Z) (v : vector) : vector :=
  if (size v <? capacity v)%nat
  then mkVector (elems v ++ [x]) (capacity v)
  else mkVector (elems v ++ [x]) (size v + Nat.max (size v) 1).

Definition reserve (n : nat) (v : vector) : vector :=
  if (capacity v <? n)%nat then mkVector (elems v) n else v.

(** [v[n]]: no check; outside the elements the behaviour is undefined. *)
Definition subscript {S} (v : vector) (n : nat) : M S Z :=
  match elems v !! n with
  | Some z => ret z
  | None => undefined
  end.

(** [v.at(n)]: the range check, then the element. *)
Definition at_ {S} (v : vector) (n : nat) : M S Z :=
  if (size v <=? n)%nat then throw (out_of_range n (size v))
  else subscript v n.

End Vector.

Export Vector.

(** ** vectors/ex01_vector_memory_layout *)

Module MemoryLayout.

Definition data0 : vector := from_list [2; 3; 5; 7; 11; 13; 17; 19].

(** [main] up to the report after [push_back]; the lines printing
    addresses are left out.  Returns the vector before and after. *)
Definition main_push_back (c : console) : vector * vector * console :=
  let data := data0 in
  let c1 := print [TStr "Size of vector: "; TInt (Z.of_nat (size data));
                   TEndl;
                   TStr "Capacity of vector: ";
                   TInt (Z.of_nat (capacity data)); TEndl; TEndl] c in
  let data' := push_back 21 data in
  let c2 := print [TStr "After push_back..."; TEndl;
                   TStr "Size of vector after push_back: ";
                   TInt (Z.of_nat (size data')); TEndl;
                   TStr "Capacity of vector after push_back: ";
                   TInt (Z.of_nat (capacity data')); TEndl; TEndl] c1 in
  (data, data', c2).

End MemoryLayout.

(** ** ch16/ex03_unsigned_length_problem *)

Module UnsignedLength.

(** The loop [for (int i = 0; i < n; i++) counter++;] from the state
    ([i], [counter]); [runs] counts the executions of the body.  [None]
    when the fuel runs out before the loop ends. *)
Fixpoint for_loop (fuel : nat) (n i counter : Z) (runs : nat)
  : option (Z * nat) :=
  match fuel with
  | O => None
  | S fuel' =>
      if i <? n
      then for_loop fuel' n (int_incr i) (int_incr counter) (S runs)
      else Some (counter, runs)
  end.

(** [doSomethingNTimes] on its parameter [n : unsigned short int]:
    the final counter, the number of times the body ran, the console. *)
Definition doSomethingNTimes (fuel : nat) (n : Z) (c : console)
  : option (Z * nat * console) :=
  let counter := 0 in
  match for_loop fuel n 0 counter 0 with
  | Some (counter', runs) =>
      Some (counter', runs,
            print [TStr "This code ran "; TInt counter';
                   TStr " times!\n"] c)
  | None => None
  end.

(** A call with an [int] argument: the argument is converted to the
    parameter type first. *)
Definition call_doSomethingNTimes (fuel : nat) (arg : Z) (c : console)
  : option (Z * nat * console) :=
  doSomethingNTimes fuel (to_ushort arg) c.

(** The local state of [main] in the access examples. *)
Record frame : Type := mkFrame {
  prime : vector;
  io : console
}.

Definition out (ts : list token) : M frame unit :=
  modify (fun f => mkFrame (prime f) (print ts (io f))).

Definition out_err (ts : list token) : M frame unit :=
  modify (fun f => mkFrame (prime f) (print_err ts (io f))).

(** [std::cout << prime[n] << '\n';] *)
Definition print_subscript (n : nat) : M frame unit :=
  let* f := get in
  let* z := subscript (prime f) n in
  out [TInt z; TStr "\n"].

(** [std::cout << prime.at(n) << '\n';] *)
Definition print_at (n : nat) : M frame unit :=
  let* f := get in
  let* z := at_ (prime f) n in
  out [TInt z; TStr "\n"].

(** The [try] statement around a checked access, with its handler. *)
Definition guarded_print_at (n : nat) : M frame unit :=
  try_catch
    (print_at n)
    (fun e =>
       out_err ([TStr "Caught std::out_of_range_error: "] ++ what e
                ++ [TStr "\n"]);;
       out [TStr "Continuing...\n"]).

Definition prime0 : vector := from_list [2; 3; 5; 7; 11].

(** The two subscripts of [main] before the checked accesses:
    [prime[3]] and [prime[9]]. *)
Definition main_subscripts : M frame unit :=
  print_subscript 3;;
  print_subscript 9.

(** [main] from the checked accesses on: [prime.at(3)], the guarded
    [prime.at(9)], then the first two access examples. *)
Definition main_checked_access : M frame unit :=
  print_at 3;;
  guarded_print_at 9;;
  out [TStr "\nVector access examples:\n"];;
  print_subscript 3;;
  print_subscript 3.

(** The state [main] is in after the handler of a failed [at(n)]. *)
Definition after_handler (n : nat) (f : frame) : frame :=
  mkFrame (prime f)
    (print [TStr "Continuing...\n"]
       (print_err ([TStr "Caught std::out_of_range_error: "]
                   ++ what (out_of_range n (size (prime f)))
                   ++ [TStr "\n"])
          (io f))).

End UnsignedLength.

(** ** Objects and closures *)

Module Closures.

Definition loc : Type := positive.

(** The objects of a running [main] (each [int] object at its own
    location) and the console. *)
Record machine : Type := mkMachine {
  mem : gmap loc Z;
  con : console
}.

Definition initial (c : console) : machine := mkMachine ∅ c.

(** A new [int] object holding [v], at a location not in use. *)
Definition alloc (v : Z) : M machine loc :=
  fun m =>
    let l := fresh (dom (mem m)) in
    Ok l (mkMachine (<[l := v]> (mem m)) (con m)).

(** Reading an object; undefined once its lifetime has ended. *)
Definition load (l : loc) : M machine Z :=
  fun m =>
    match mem m !! l with
    | Some v => Ok v m
    | None => Undefined m
    end.

Definition assign (l : loc) (v : Z) : M machine unit :=
  fun m =>
    match mem m !! l with
    | Some _ => Ok tt (mkMachine (<[l := v]> (mem m)) (con m))
    | None => Undefined m
    end.

(** The end of an object's lifetime ([delete], or a temporary going out
    of scope). *)
Definition free (l : loc) : M machine unit :=
  fun m =>
    match mem m !! l with
    | Some _ => Ok tt (mkMachine (delete l (mem m)) (con m))
    | None => Undefined m
    end.

Definition say (ts : list token) : M machine unit :=
  modify (fun m => mkMachine (mem m) (print ts (con m))).

(** How a lambda holds the variable it captured: as a data member of
    its own, initialised with a copy, or as a reference to the original
    object. *)
Inductive capture : Type :=
| ByCopy (member : loc)
| ByReference (target : loc).

(** The object the captured name denotes inside the lambda's body. *)
Definition cell (k : capture) : loc :=
  match k with
  | ByCopy member => member
  | ByReference target => target
  end.

(** A closure object: its capture and its function-call operator, which
    is given the object the captured name denotes. *)
Record closure : Type := mkClosure {
  captured : capture;
  body : loc -> M machine unit
}.

Definition invoke (f : closure) : M machine unit :=
  body f (cell (captured f)).

(** [[x]() mutable { ... }] *)
Definition capture_by_value (x : loc) (b : loc -> M machine unit)
  : M machine closure :=
  let* v := load x in
  let* member := alloc v in
  ret (mkClosure (ByCopy member) b).

(** [[&x]() { ... }] *)
Definition capture_by_reference (x : loc) (b : loc -> M machine unit)
  : M machine closure :=
  ret (mkClosure (ByReference x) b).

(** Copy construction of a closure object: a by-copy member is copied
    with its current value into the new object, a reference member is
    bound to the same object. *)
Definition copy (f : closure) : M machine closure :=
  match captured f with
  | ByCopy member =>
      let* v := load member in
      let* member' := alloc v in
      ret (mkClosure (ByCopy member') (body f))
  | ByReference target => ret f
  end.

Definition destroy (f : closure) : M machine unit :=
  match captured f with
  | ByCopy member => free member
  | ByReference _ => ret tt
  end.

(** [std::cout << ++i << '\n';] *)
Definition increment_and_print (i : loc) : M machine unit :=
  let* v := load i in
  assign i (int_incr v);;
  say [TInt (int_incr v); TStr "\n"].

End Closures.

Export Closures.

(** ** Issues making copies of mutable lambdas *)

Module LambdaCopies.

(** [void myInvoke(const std::function<void()> &fn) { fn(); }] *)
Definition myInvoke (fn : closure) : M machine unit := invoke fn.

(** [myInvoke(f)] with [f] a lambda: the parameter binds to a temporary
    [std::function] that holds a copy of [f]. *)
Definition myInvoke_lambda (f : closure) : M machine unit :=
  let* temporary := copy f in
  myInvoke temporary;;
  destroy temporary.

(** [myInvoke(f)] with [f] a [std::function] already: the parameter
    binds to [f] itself. *)
Definition myInvoke_function (f : closure) : M machine unit := myInvoke f.

(** [myInvoke(std::ref(f))]: the temporary [std::function] holds a
    reference wrapper, and what it calls is [f] itself. *)
Definition myInvoke_ref (f : closure) : M machine unit := myInvoke f.

Definition basic_copy_example : M machine unit :=
  say [TStr "Basic lambda copy example...\n"];;
  let* i := alloc 0 in
  let* count := capture_by_value i increment_and_print in
  invoke count;;
  let* otherCount := copy count in
  invoke count;;
  invoke otherCount.

Definition unintended_copy_example : M machine unit :=
  say [TStr "\nBasic lambda copy example...\n"];;
  let* j := alloc 0 in
  let* count2 := capture_by_value j increment_and_print in
  myInvoke_lambda count2;;
  myInvoke_lambda count2;;
  myInvoke_lambda count2.

Definition type_alignment_example : M machine unit :=
  say [TStr "\nType alignment example...\n"];;
  let* k := alloc 0 in
  let* count3 := capture_by_value k increment_and_print in
  myInvoke_function count3;;
  myInvoke_function count3;;
  myInvoke_function count3.

Definition reference_wrapped_example : M machine unit :=
  say [TStr "\nReference wrapped example...\n"];;
  let* m := alloc 0 in
  let* count4 := capture_by_value m increment_and_print in
  myInvoke_ref count4;;
  myInvoke_ref count4;;
  myInvoke_ref count4.

Definition main : M machine Z :=
  basic_copy_example;;
  unintended_copy_example;;
  type_alignment_example;;
  reference_wrapped_example;;
  ret 0.

(** One call out of an interleaving: of the original closure or of its
    copy. *)
Definition call_either (original other : closure) (original_turn : bool)
  : M machine unit :=
  invoke (if original_turn then original else other).

(** What two separate counters print, starting at [a] and [b], when
    they are incremented in the given order ([true]: the first). *)
Fixpoint two_counters (a b : Z) (turns : list bool) : list token :=
  match turns with
  | [] => []
  | true :: turns' =>
      TInt (int_incr a) :: TStr "\n" :: two_counters (int_incr a) b turns'
  | false :: turns' =>
      TInt (int_incr b) :: TStr "\n" :: two_counters a (int_incr b) turns'
  end.

(** How many of the turns are the given closure's. *)
Definition turns_of (who : bool) (turns : list bool) : nat :=
  length (filter (fun t => t = who) turns).

(** What one counter prints when incremented [k] times from [a]. *)
Fixpoint one_counter (k : nat) (a : Z) : list token :=
  match k with
  | O => []
  | S k' => TInt (int_incr a) :: TStr "\n" :: one_counter k' (int_incr a)
  end.

End LambdaCopies.

(** ** ch20/ex07a_lambda_captures *)

Module LambdaCaptures.

(** The body of [throwShell]. *)
Definition throwShell_body (shells : loc) : M machine unit :=
  let* v := load shells in
  assign shells (int_decr v);;
  say [TStr "Threw shell! "; TInt (int_decr v); TStr " shells left.\n"].

Definition make_throwShell (shells : loc) : M machine closure :=
  capture_by_value shells throwShell_body.

(** The body of [throwBanana]. *)
Definition throwBanana_body (bananas : loc) : M machine unit :=
  let* v := load bananas in
  assign bananas (int_decr v);;
  say [TStr "Threw banana! "; TStr " bananas left.\n"].

Definition make_throwBanana (bananas : loc) : M machine closure :=
  capture_by_reference bananas throwBanana_body.

(** The "Mutable Captures" part of [main]; returns where [shells] is. *)
Definition mutable_captures : M machine loc :=
  let* shells := alloc 3 in
  let* throwShell := make_throwShell shells in
  invoke throwShell;;
  invoke throwShell;;
  say [TStr "\nThis will be wrong...\n"];;
  let* v := load shells in
  say [TInt v; TStr " shells left.\n\n"];;
  ret shells.

(** The "Capture By Reference" part of [main]; returns where [bananas]
    is. *)
Definition capture_by_reference_example : M machine loc :=
  let* bananas := alloc 3 in
  let* throwBanana := make_throwBanana bananas in
  invoke throwBanana;;
  invoke throwBanana;;
  say [TStr "\nThis will be right...\n"];;
  let* v := load bananas in
  say [TInt v; TStr " left.\n"];;
  ret bananas.

End LambdaCaptures.

(** ** crashes_and_undefined_behavior/ex04_dangling_capture *)

Module DanglingCapture.

(** [printNumber(const int &n)]: the lambda it returns refers to the
    object [n] is bound to. *)
Definition sayNumber_body (n : loc) : M machine unit :=
  let* v := load n in
  say [TStr "Your number is "; TInt v; TStr "\n"].

Definition printNumber (n : loc) : M machine closure :=
  capture_by_reference n sayNumber_body.

(** [main] up to and including [delete ptr]; [garbage] is whatever the
    new object holds before the assignment.  Returns [ptr] and
    [sayNumber]. *)
Definition main_until_delete (garbage : Z) : M machine (loc * closure) :=
  let* ptr := alloc garbage in
  assign ptr 7;;
  let* sayNumber := printNumber ptr in
  free ptr;;
  ret (ptr, sayNumber).

Definition main (garbage : Z) : M machine Z :=
  let* (ptr, sayNumber) := main_until_delete garbage in
  invoke sayNumber;;
  invoke sayNumber;;
  invoke sayNumber;;
  invoke sayNumber;;
  ret 0.

End DanglingCapture.

(** ** crashes_and_undefined_behavior: stack overflow *)

Module StackOverflow.

(** How a run of [eat_stack] ends: it returns, or the call stack is
    exhausted and the process is killed.  Either way with the value of
    [g_counter] and what was printed. *)
Inductive run : Type :=
| Returned (g_counter : Z) (out : list token)
| StackExhausted (g_counter : Z) (out : list token).

(** [eat_stack] with room for [frames] more activations on the stack. *)
Fixpoint eat_stack (frames : nat) (g_counter : Z) (out : list token) : run :=
  match frames with
  | O => StackExhausted g_counter out
  | S frames' =>
      let g1 := int_incr g_counter in
      let out1 := out ++ [TInt g1; TEndl] in
      if 0 <? g1
      then
        match eat_stack frames' g1 out1 with
        | Returned g2 out2 => Returned g2 (out2 ++ [TStr "hi"; TEndl])
        | StackExhausted g2 out2 => StackExhausted g2 out2
        end
      else Returned g1 (out1 ++ [TStr "hi"; TEndl])
  end.

(** [main]: [g_counter] starts at 0. *)
Definition main (frames : nat) : run := eat_stack frames 0 [].

(** The numbers [from + 1], ..., [from + n], each followed by
    [std::endl]. *)
Fixpoint counting (n : nat) (from : Z) : list token :=
  match n with
  | O => []
  | S n' => TInt (from + 1) :: TEndl :: counting n' (from + 1)
  end.

End StackOverflow.

(** ** ch16/ex03_unsigned_length_problem: unsigned arithmetic and the
    access examples *)

Module UnsignedArithmetic.
Import UnsignedLength.

Definition to_uint (z : Z) : Z := z mod 2 ^ 32.

(** Conversion to [std::size_t], 64 bits wide. *)
Definition to_size_t (z : Z) : Z := z mod 2 ^ 64.

Definition int_sub (x y : Z) : Z := to_int (x - y).

(** [x += k] and [x -= k] on an [unsigned short]: the operands are
    promoted to [int], the result is converted back. *)
Definition ushort_add_assign (x k : Z) : Z := to_ushort (int_add x k).
Definition ushort_sub_assign (x k : Z) : Z := to_ushort (int_sub x k).

(** [u - s] with [u] an [unsigned int] and [s] an [int]: [s] is converted
    to [unsigned int] and the difference is taken modulo 2^32. *)
Definition uint_minus_int (u s : Z) : Z := to_uint (u - to_uint s).

(** The "Unsigned integer dangers" part of [main]. *)
Definition unsigned_dangers (c : console) : console :=
  let c1 := print [TStr "Unsigned integer dangers:\n"] c in
  let x := 65535 in
  let x := ushort_add_assign x 1 in
  let c2 := print [TStr "After incrementing, x = "; TInt x; TStr "\n"] c1 in
  let x := 0 in
  let x := ushort_sub_assign x 1 in
  let c3 := print [TStr "After decrementing, x = "; TInt x; TStr "\n"] c2 in
  let x := to_ushort (-80) in
  let c4 := print [TStr "After setting x to a negative value, x = "; TInt x;
                   TStr "\n"] c3 in
  let u := 2 in
  let s := 3 in
  print [TStr "Unsigned - signed integer: "; TInt (uint_minus_int u s);
         TStr "\n"] c4.

(** [v[i]] with [i] an [int]: the index is converted to [std::size_t]. *)
Definition subscript_int {S} (v : vector) (i : Z) : M S Z :=
  subscript v (Z.to_nat (to_size_t i)).

(** [v.data()[i]] with [i] an [int]: the element [i] places from the
    start of the storage; before the start, or past the elements, there
    is nothing to read. *)
Definition data_subscript {S} (v : vector) (i : Z) : M S Z :=
  if i <? 0 then undefined else subscript v (Z.to_nat i).

(** The "Vector access examples" of [main], with the three indices it
    uses. *)
Definition access_examples (constexpr_index size_t_index : nat)
           (int_index : Z) : M frame unit :=
  out [TStr "\nVector access examples:\n"];;
  print_subscript constexpr_index;;
  print_subscript size_t_index;;
  (let* f := get in
   let* z := subscript_int (prime f) int_index in
   out [TInt z; TStr "\n"]);;
  (let* f := get in
   let* z := data_subscript (prime f) int_index in
   out [TInt z; TStr "\n"]).

Definition main_access_examples : M frame unit := access_examples 3 3 3.

End UnsignedArithmetic.

(** ** vectors/ex01_vector_memory_layout: the loop up to the capacity *)

Module CapacityLoop.

(** The lines ["Value at position i: x"] for the elements [l], the first
    of them at position [i]. *)
Fixpoint value_lines (i : nat) (l : list Z) : list token :=
  match l with
  | [] => []
  | x :: l' =>
      [TStr "Value at position "; TInt (Z.of_nat i); TStr ": "; TInt x;
       TEndl] ++ value_lines (S i) l'
  end.

(** [for (auto i = size_t{0}; i < data.capacity(); ++i)
       std::cout << ... << data[i] << std::endl;]
    from index [i] on; [None] when the fuel runs out. *)
Fixpoint values_loop (fuel : nat) (data : vector) (i : nat) (c : console)
  : option (result console unit) :=
  match fuel with
  | O => None
  | S fuel' =>
      if (i <? capacity data)%nat
      then
        match subscript data i c with
        | Ok x c' =>
            values_loop fuel' data (S i)
              (print [TStr "Value at position "; TInt (Z.of_nat i);
                      TStr ": "; TInt x; TEndl] c')
        | Raised e c' => Some (Raised e c')
        | Undefined c' => Some (Undefined c')
        end
      else Some (Ok tt c)
  end.

(** The last loop of [main], on the vector after [push_back]. *)
Definition iterate_header : string :=
  "Example - iterate to capacity (do not do this in practice)...".

Definition main_values_loop (fuel : nat) (c : console)
  : option (result console unit) :=
  values_loop fuel (push_back 21 MemoryLayout.data0) 0
    (print [TStr iterate_header; TEndl] c).

End CapacityLoop.

(** ** vectors/ex02_reserve *)

Module Reserve.
Import UnsignedArithmetic.

(** [for (auto i = int{0}; i < n; ++i) v.push_back(x);] from [i] on. *)
Fixpoint push_loop (fuel : nat) (n i x : Z) (v : vector) : option vector :=
  match fuel with
  | O => None
  | S fuel' =>
      if i <? n then push_loop fuel' n (int_incr i) x (push_back x v)
      else Some v
  end.

(** The two vectors of [main] after their loops, for [n] elements; the
    timing is left out. *)
Definition main_vectors (fuel : nat) (n : Z) : option (vector * vector) :=
  let v1 := from_list [] in
  let v2 := from_list [] in
  let v2 := reserve (Z.to_nat (to_size_t n)) v2 in
  match push_loop fuel n 0 2 v1 with
  | Some v1' =>
      match push_loop fuel n 0 2 v2 with
      | Some v2' => Some (v1', v2')
      | None => None
      end
  | None => None
  end.

Definition main (fuel : nat) : option (vector * vector) :=
  main_vectors fuel 50000000.

(** [k] elements [x] appended one after the other. *)
Definition push_many (k : nat) (x : Z) (v : vector) : vector :=
  Nat.iter k (push_back x) v.

Definition power_of_two (n : nat) : Prop := exists k : nat, n = (2 ^ k)%nat.

(** Growing from nothing: what [push_back] keeps true of a vector that
    started empty and has at least one element. *)
Definition grown (v : vector) : Prop :=
  power_of_two (capacity v) /\
  (1 <= size v <= capacity v)%nat /\ (capacity v < 2 * size v)%nat.

End Reserve.

(** ** Lambdas: [repeat1] to [repeat4], [isEven], the generic [print] *)

Module Lambdas.

(** [for (int i{0}; i < repetitions; ++i) fn(i);] from [i] on. *)
Fixpoint repeat_from {S} (fuel : nat) (repetitions i : Z)
         (fn : Z -> M S unit) (s : S) : option (result S unit) :=
  match fuel with
  | O => None
  | S fuel' =>
      if i <? repetitions
      then
        match fn i s with
        | Ok _ s' => repeat_from fuel' repetitions (int_incr i) fn s'
        | Raised e s' => Some (Raised e s')
        | Undefined s' => Some (Undefined s')
        end
      else Some (Ok tt s)
  end.

(** The four ways of taking the callable have the same body. *)
Definition repeat1 {S} (fuel : nat) (repetitions : Z) (fn : Z -> M S unit)
  : S -> option (result S unit) := repeat_from fuel repetitions 0 fn.

Definition repeat2 {S} (fuel : nat) (repetitions : Z) (fn : Z -> M S unit)
  : S -> option (result S unit) := repeat_from fuel repetitions 0 fn.

Definition repeat3 {S} (fuel : nat) (repetitions : Z) (fn : Z -> M S unit)
  : S -> option (result S unit) := repeat_from fuel repetitions 0 fn.

Definition repeat4 {S} (fuel : nat) (repetitions : Z) (fn : Z -> M S unit)
  : S -> option (result S unit) := repeat_from fuel repetitions 0 fn.

(** [[](int i) { std::cout << i << '\n'; }] *)
Definition lambda (i : Z) : M console unit :=
  modify (print [TInt i; TStr "\n"]).

(** [[](int i) { return (i % 2) == 0; }]; [%] truncates towards zero. *)
Definition isEven (i : Z) : bool := Z.rem i 2 =? 0.

(** [std::all_of] over the elements of an array. *)
Definition all_of (l : list Z) (p : Z -> bool) : bool := forallb p l.

Definition arr2 : list Z := [1; 2; 3; 4; 5; 6].

Definition all_even_example (c : console) : console :=
  let result := all_of arr2 isEven in
  print [TInt (if result then 1 else 0); TStr "\n"]
    (print [TStr "\nPrint 1 if all elements of arr2 are 0...\n"] c).

(** What the generic lambda [print] is called with: a string literal or
    an [int].  Each of the two instantiations has its own [static int
    callCount]. *)
Inductive argument : Type :=
| AString (s : string)
| AnInt (z : Z).

Record statics : Type := mkStatics {
  callCount_string : Z;
  callCount_int : Z
}.

Definition same_kind (a b : argument) : bool :=
  match a, b with
  | AString _, AString _ => true
  | AnInt _, AnInt _ => true
  | _, _ => false
  end.

Definition shown (a : argument) : token :=
  match a with
  | AString s => TStr s
  | AnInt z => TInt z
  end.

(** [std::cout << callCount++ << ": " << value << '\n';] in the
    instantiation for the type of [value]. *)
Definition print_generic (value : argument) (st : statics * console)
  : statics * console :=
  let '(k, c) := st in
  match value with
  | AString _ =>
      (mkStatics (int_incr (callCount_string k)) (callCount_int k),
       print [TInt (callCount_string k); TStr ": "; shown value; TStr "\n"] c)
  | AnInt _ =>
      (mkStatics (callCount_string k) (int_incr (callCount_int k)),
       print [TInt (callCount_int k); TStr ": "; shown value; TStr "\n"] c)
  end.

Definition print_calls (values : list argument) (st : statics * console)
  : statics * console :=
  fold_left (fun st value => print_generic value st) values st.

(** The calls of [main]; both counters start at 0. *)
Definition generic_lambda_example (c : console) : statics * console :=
  print_calls [AString "hello"; AString "hello"; AnInt 1; AnInt 2; AnInt 3;
               AString "ding"]
    (mkStatics 0 0, c).

(** How many of the calls in [history] were of the kind of [value]. *)
Definition earlier_calls (value : argument) (history : list argument) : nat :=
  length (filter (fun a => same_kind value a = true) history).

End Lambdas.

(** ** What was typed *)

Module Typing.

(** The console [c] with [ws] typed in front of what is still to be
    read. *)
Definition typed_before (ws : list ascii) (c : console) : console :=
  mkConsole (cout c) (cerr c) (ws ++ cin c) (cin_fail c) (extractions c).

End Typing.

Export Typing.

(** ** crashes_and_undefined_behavior: the dangling pointer *)

Module DanglingPointer.

(** [main]: [garbage] is what the new object holds before the
    assignment. *)
Definition main (garbage : Z) : M machine Z :=
  let* ptr := alloc garbage in
  assign ptr 7;;
  free ptr;;
  (let* v := load ptr in say [TInt v; TEndl]);;
  free ptr;;
  ret 0.

End DanglingPointer.

(** * Properties *)

(** ** Machine integers *)

Lemma to_int_in_range (z : Z) : in_int z -> to_int z = z.
Proof.
unfold in_int, to_int, INT_MIN, INT_MAX. intros Hz.
rewrite Z.mod_small; lia.
Qed.

Lemma to_int_is_int (z : Z) : in_int (to_int z).
Proof.
unfold in_int, to_int, INT_MIN, INT_MAX.
pose proof (Z.mod_pos_bound (z + 2 ^ 31) (2 ^ 32) ltac:(lia)). lia.
Qed.

Lemma int_incr_in_range (v : Z) :
INT_MIN <= v < INT_MAX -> int_incr v = v + 1.
Proof.
intros Hv. apply to_int_in_range.
unfold in_int, INT_MIN, INT_MAX in *. lia.
Qed.

Lemma to_ushort_range (z : Z) : 0 <= to_ushort z <= USHRT_MAX.
Proof.
unfold to_ushort, USHRT_MAX.
pose proof (Z.mod_pos_bound z (2 ^ 16) ltac:(lia)). lia.
Qed.

(** ** Sum and product *)

Section Arithmetic.
Import FunctionExamples.

Lemma main_parameters_math (c : console) :
  exists before,
    cout (snd (main_parameters c)) = before ++ math_examples_output.
Proof.
  unfold main_parameters.
  destruct (getValueFromUser _) as [v c2].
  exists (cout (printDouble v c2)).
  cbn. rewrite <- !app_assoc. reflexivity.
Qed.

(** C5, as the code has it: [add] and [multiply] return the sum and the
    product whenever these fit in an [int]; on 2 and 3 they return 5 and
    6, which is what [main] prints. *)
Theorem add_multiply_exact_in_range (x y : Z) :
  (in_int (x + y) -> add x y = x + y) /\
  (in_int (x * y) -> multiply x y = x * y) /\
  add 2 3 = 5 /\ multiply 2 3 = 6 /\
  (forall c, exists before,
      cout (snd (main_parameters c)) = before ++ math_examples_output).
Proof.
  split; [apply to_int_in_range|].
  split; [apply to_int_in_range|].
  split; [reflexivity|].
  split; [reflexivity|].
  apply main_parameters_math.
Qed.

Lemma add_multiply_exact_at_2_3 :
  in_int (2 + 3) /\ in_int (2 * 3) /\
  add 2 3 = 2 + 3 /\ multiply 2 3 = 2 * 3.
Proof.
  assert (H5 : in_int (2 + 3)) by (unfold in_int, INT_MIN, INT_MAX; lia).
  assert (H6 : in_int (2 * 3)) by (unfold in_int, INT_MIN, INT_MAX; lia).
  destruct (add_multiply_exact_in_range 2 3) as (Hadd & Hmul & _).
  exact (conj H5 (conj H6 (conj (Hadd H5) (Hmul H6)))).
Defined.

(** C5 as stated fails: both arguments are [int]s, yet the results are
    not the sum and the product. *)
Lemma add_multiply_overflow :
  in_int INT_MAX /\ in_int 1 /\ add INT_MAX 1 <> INT_MAX + 1 /\
  in_int 65536 /\ multiply 65536 65536 <> 65536 * 65536.
Proof.
  unfold in_int. repeat split; vm_compute; congruence.
Qed.

End Arithmetic.

(** ** The loop of [doSomethingNTimes] *)

Section Loop.
Import UnsignedLength.

Lemma for_loop_runs (fuel : nat) :
  forall (n i counter : Z) (runs : nat),
    0 <= i <= n -> n <= USHRT_MAX ->
    0 <= counter -> counter + (n - i) <= USHRT_MAX ->
    (Z.to_nat (n - i) < fuel)%nat ->
    for_loop fuel n i counter runs
    = Some (counter + (n - i), (runs + Z.to_nat (n - i))%nat).
Proof.
  induction fuel as [|fuel IH]; intros n i counter runs Hi Hn Hc Hsum Hfuel.
  - lia.
  - cbn [for_loop]. destruct (Z.ltb_spec i n) as [Hlt | Hge].
    + unfold USHRT_MAX in *.
      rewrite !int_incr_in_range by (unfold INT_MIN, INT_MAX; lia).
      rewrite IH by lia.
      f_equal. f_equal; [lia|].
      replace (n - i) with (Z.succ (n - (i + 1))) by lia.
      rewrite Z2Nat.inj_succ by lia. lia.
    + replace (n - i) with 0 by lia. cbn. f_equal. f_equal; lia.
Qed.

(** C10: a call of [doSomethingNTimes] with the [int] argument [a] runs
    the loop body [a mod 2^16] times and reports that count; for [-1]
    this is 65535. *)
Theorem doSomethingNTimes_runs_mod_2_16 (a : Z) (fuel : nat) (c : console) :
  (Z.to_nat (a mod 2 ^ 16) < fuel)%nat ->
  to_ushort (-1) = 65535 /\
  call_doSomethingNTimes fuel a c
  = Some (a mod 2 ^ 16, Z.to_nat (a mod 2 ^ 16),
          print [TStr "This code ran "; TInt (a mod 2 ^ 16);
                 TStr " times!\n"] c).
Proof.
  intros Hfuel. split; [reflexivity|].
  unfold call_doSomethingNTimes, doSomethingNTimes.
  pose proof (to_ushort_range a) as Hr.
  unfold to_ushort in *.
  rewrite for_loop_runs by (rewrite ?Z.sub_0_r; lia).
  rewrite Z.sub_0_r, Z.add_0_l, Nat.add_0_l. reflexivity.
Qed.

Lemma doSomethingNTimes_minus_one :
  call_doSomethingNTimes (Z.to_nat 65536) (-1) no_input
  = Some (65535, Z.to_nat 65535,
          print [TStr "This code ran "; TInt 65535; TStr " times!\n"]
                no_input).
Proof.
  refine (proj2 (doSomethingNTimes_runs_mod_2_16 (-1) (Z.to_nat 65536) _ _)).
  change ((-1) mod 2 ^ 16) with 65535. lia.
Defined.

End Loop.

(** ** Growth of a vector *)

Section VectorGrowth.
Import MemoryLayout.

Lemma size_from_list (l : list Z) : size (from_list l) = length l.
Proof. reflexivity. Qed.

Lemma from_list_full (l : list Z) :
  size (from_list l) = capacity (from_list l).
Proof. reflexivity. Qed.

Lemma size_push_back (x : Z) (v : vector) :
  size (push_back x v) = S (size v).
Proof.
  unfold push_back, size.
  destruct (_ <? _)%nat; cbn; rewrite length_app; cbn; lia.
Qed.

Lemma elems_push_back (x : Z) (v : vector) :
  elems (push_back x v) = elems v ++ [x].
Proof. unfold push_back. destruct (_ <? _)%nat; reflexivity. Qed.

Lemma capacity_push_back_room (x : Z) (v : vector) :
  (size v < capacity v)%nat -> capacity (push_back x v) = capacity v.
Proof.
  intros H. unfold push_back.
  destruct (Nat.ltb_spec (size v) (capacity v)); [reflexivity | lia].
Qed.

Lemma capacity_push_back_full (x : Z) (v : vector) :
  size v = capacity v ->
  capacity (push_back x v) = (capacity v + Nat.max (capacity v) 1)%nat.
Proof.
  intros H. unfold push_back.
  destruct (Nat.ltb_spec (size v) (capacity v)); [lia|].
  cbn. rewrite H. reflexivity.
Qed.

Lemma capacity_push_back_bound (x : Z) (v : vector) :
  (size (push_back x v) <= capacity (push_back x v))%nat.
Proof.
  rewrite size_push_back. unfold push_back.
  destruct (Nat.ltb_spec (size v) (capacity v)); cbn; lia.
Qed.

(** An empty vector is the one full vector that cannot double. *)
Lemma capacity_push_back_empty (x : Z) :
  capacity (push_back x (from_list [])) = 1%nat.
Proof. reflexivity. Qed.

(** C1: a vector built from an initializer list has the list's length;
    [push_back] adds exactly one to the size and leaves the capacity at
    least as large as the new size; a vector that was full, as one built
    from a list of at least one element is, has its capacity doubled.
    From [{2, 3, 5, 7}] the size
    becomes 5 and the capacity 8; [main] itself goes from 8 elements
    and capacity 8 to 9 elements and capacity 16. *)
Theorem push_back_grows (l : list Z) (x : Z) (v : vector) :
  size (from_list l) = length l /\
  size (push_back x (from_list l)) = S (length l) /\
  size (push_back x v) = S (size v) /\
  (size (push_back x v) <= capacity (push_back x v))%nat /\
  (size v = capacity v -> (0 < capacity v)%nat ->
   capacity (push_back x v) = (2 * capacity v)%nat) /\
  (forall a,
      capacity (push_back x (from_list (a :: l)))
      = (2 * capacity (from_list (a :: l)))%nat) /\
  ((size v < capacity v)%nat -> capacity (push_back x v) = capacity v) /\
  (let v4 := from_list [2; 3; 5; 7] in
   size (push_back 21 v4) = 5%nat /\
   (5 <= capacity (push_back 21 v4))%nat /\
   capacity (push_back 21 v4) = (2 * capacity v4)%nat) /\
  (forall c,
      let '(data, data', _) := main_push_back c in
      size data = 8%nat /\ capacity data = 8%nat /\
      size data' = 9%nat /\ capacity data' = 16%nat).
Proof.
  split; [apply size_from_list|].
  split; [rewrite size_push_back; reflexivity|].
  split; [apply size_push_back|].
  split; [apply capacity_push_back_bound|].
  split.
  { intros Hfull Hpos. rewrite capacity_push_back_full by exact Hfull. lia. }
  split.
  { intros a. rewrite capacity_push_back_full by apply from_list_full.
    cbn. lia. }
  split; [apply capacity_push_back_room|].
  split; [cbn; lia|].
  intros c. cbn. repeat split.
Qed.

Lemma push_back_grows_data0 :
  size data0 = capacity data0 /\ (0 < capacity data0)%nat /\
  size (push_back 21 data0) = S (size data0) /\
  capacity (push_back 21 data0) = (2 * capacity data0)%nat.
Proof.
  assert (Hfull : size data0 = capacity data0) by reflexivity.
  assert (Hpos : (0 < capacity data0)%nat) by (cbn; lia).
  destruct (push_back_grows [] 21 data0)
    as (_ & _ & Hsize & _ & Hcap & _).
  exact (conj Hfull (conj Hpos (conj Hsize (Hcap Hfull Hpos)))).
Defined.

End VectorGrowth.

(** ** Checked and unchecked access *)

Section CheckedAccess.
Import UnsignedLength.

Lemma at_out_of_range {S} (v : vector) (n : nat) (s : S) :
  (size v <= n)%nat -> at_ v n s = Raised (out_of_range n (size v)) s.
Proof.
  intros H. unfold at_.
  destruct (Nat.leb_spec (size v) n); [reflexivity | lia].
Qed.

Lemma at_in_range {S} (v : vector) (n : nat) (s : S) :
  (n < size v)%nat -> exists z, elems v !! n = Some z /\ at_ v n s = Ok z s.
Proof.
  intros H. unfold at_, subscript.
  destruct (Nat.leb_spec (size v) n); [lia|].
  destruct (lookup_lt_is_Some_2 (elems v) n H) as [z Hz].
  exists z. rewrite Hz. split; reflexivity.
Qed.

Lemma subscript_out_of_range {S} (v : vector) (n : nat) (s : S) :
  (size v <= n)%nat -> subscript v n s = Undefined s.
Proof.
  intros H. unfold subscript.
  rewrite (lookup_ge_None_2 (elems v) n) by exact H. reflexivity.
Qed.

(** [prime[9]] in [main]: printed after [prime[3]], and undefined. *)
Lemma main_subscripts_undefined (c : console) :
  main_subscripts (mkFrame prime0 c)
  = Undefined (mkFrame prime0 (print [TInt 7; TStr "\n"] c)).
Proof. reflexivity. Qed.

Lemma subscript_never_throws {S} (v : vector) (n : nat) (s s' : S) e :
  subscript v n s <> Raised e s'.
Proof. unfold subscript. destruct (elems v !! n); discriminate. Qed.

Lemma guarded_print_at_out_of_range (n : nat) (f : frame) :
  (size (prime f) <= n)%nat ->
  guarded_print_at n f = Ok tt (after_handler n f).
Proof.
  intros H. unfold guarded_print_at, try_catch, print_at, bind, get.
  rewrite at_out_of_range by exact H. reflexivity.
Qed.

(** C2: [at] with an index at or past the size throws
    [std::out_of_range]; the [try] statement of [main] catches it, logs
    it and ends normally, so that whatever follows runs, with the
    vector as it was; the subscript at the same index makes no check
    and throws nothing: its behaviour is undefined.  In [main],
    [prime.at(9)] on the five primes is caught and the access examples
    after it run. *)
Theorem at_past_the_end_is_caught (f : frame) (n : nat) :
  (size (prime f) <= n)%nat ->
  at_ (prime f) n f = Raised (out_of_range n (size (prime f))) f /\
  guarded_print_at n f = Ok tt (after_handler n f) /\
  prime (after_handler n f) = prime f /\
  (forall (A : Type) (rest : M frame A),
      (guarded_print_at n;; rest) f = rest (after_handler n f)) /\
  subscript (prime f) n f = Undefined f /\
  (forall e f', subscript (prime f) n f <> Raised e f') /\
  (forall c, exists f',
      main_checked_access (mkFrame prime0 c) = Ok tt f' /\
      prime f' = prime0 /\
      cout (io f')
      = cout c ++ [TInt 7; TStr "\n"; TStr "Continuing...\n";
                   TStr "\nVector access examples:\n";
                   TInt 7; TStr "\n"; TInt 7; TStr "\n"] /\
      cerr (io f')
      = cerr c ++ [TStr "Caught std::out_of_range_error: "]
               ++ what (out_of_range 9 5) ++ [TStr "\n"]).
Proof.
  intros H.
  split; [apply at_out_of_range; exact H|].
  split; [apply guarded_print_at_out_of_range; exact H|].
  split; [reflexivity|].
  split.
  { intros A rest. unfold bind at 1.
    rewrite guarded_print_at_out_of_range by exact H. reflexivity. }
  split; [apply subscript_out_of_range; exact H|].
  split; [intros e f'; apply subscript_never_throws|].
  intros c. eexists. split; [reflexivity|].
  split; [reflexivity|].
  split; cbn; rewrite <- ?app_assoc; reflexivity.
Qed.

Lemma at_past_the_end_prime_9 :
  (size prime0 <= 9)%nat /\
  guarded_print_at 9 (mkFrame prime0 no_input)
  = Ok tt (after_handler 9 (mkFrame prime0 no_input)) /\
  (size prime0 <= size prime0)%nat /\
  at_ prime0 (size prime0) (mkFrame prime0 no_input)
  = Raised (out_of_range 5 5) (mkFrame prime0 no_input).
Proof.
  assert (H9 : (size (prime (mkFrame prime0 no_input)) <= 9)%nat)
    by (cbn; lia).
  assert (H5 : (size (prime (mkFrame prime0 no_input)) <= size prime0)%nat)
    by (cbn; lia).
  pose proof (at_past_the_end_is_caught _ 9 H9) as (_ & Hguard & _).
  pose proof (at_past_the_end_is_caught _ (size prime0) H5) as (Hat & _).
  exact (conj H9 (conj Hguard (conj H5 Hat))).
Defined.

End CheckedAccess.

(** ** Extraction from malformed input *)

Section MalformedInput.
Import FunctionExamples InputOutput.

Lemma read_digits_no_digit (s : list ascii) :
  match s with
  | a :: _ => isdigit a = false
  | [] => True
  end ->
  read_digits 0 0 s = (0, 0%nat, s).
Proof.
  destruct s as [|a s]; cbn; [reflexivity|].
  intros ->. reflexivity.
Qed.

Lemma skipws_head (s : list ascii) :
  match skipws s with
  | a :: _ => isspace a = false
  | [] => True
  end.
Proof.
  induction s as [|a s IH]; cbn; [exact I|].
  destruct (isspace a) eqn:Ha; [exact IH | exact Ha].
Qed.

(** An extraction that cannot produce a number leaves the variable as
    it was or assigns it 0, fails the stream, and prints nothing. *)
Lemma extract_int_malformed (v : Z) (c : console) :
  malformed c ->
  exists v' c',
    extract_int v c = (v', c') /\ (v' = v \/ v' = 0) /\
    cin_fail c' = true /\ cout c' = cout c /\ cerr c' = cerr c /\
    extractions c' = S (extractions c).
Proof.
  intros [Hfail | Hnum]; unfold extract_int.
  - rewrite Hfail. eexists _, _. split; [reflexivity|]. cbn. tauto.
  - destruct (cin_fail c).
    { eexists _, _. split; [reflexivity|]. cbn. tauto. }
    unfold starts_with_number in Hnum.
    destruct (skipws (cin c)) as [|a rest] eqn:Hs.
    { eexists _, _. split; [reflexivity|]. cbn. tauto. }
    destruct (isdigit a) eqn:Hda; [discriminate|].
    unfold read_sign.
    destruct (nat_of_ascii a =? 45)%nat eqn:Hminus.
    { cbn in Hnum. rewrite read_digits_no_digit
        by (destruct rest; [exact I | exact Hnum]).
      eexists _, _. split; [reflexivity|]. cbn. tauto. }
    destruct (nat_of_ascii a =? 43)%nat eqn:Hplus.
    { cbn in Hnum. rewrite read_digits_no_digit
        by (destruct rest; [exact I | exact Hnum]).
      eexists _, _. split; [reflexivity|]. cbn. tauto. }
    rewrite read_digits_no_digit by exact Hda.
    eexists _, _. split; [reflexivity|]. cbn. tauto.
Qed.

Lemma print_keeps_malformed (ts : list token) (c : console) :
  malformed c -> malformed (print ts c).
Proof. intros H. exact H. Qed.

Lemma failed_is_malformed (c : console) : cin_fail c = true -> malformed c.
Proof. intros H. left. exact H. Qed.

(** A value-initialised variable holds 0 after a failed extraction. *)
Lemma extract_zero_malformed (c : console) :
  malformed c ->
  exists c',
    extract_int 0 c = (0, c') /\ cin_fail c' = true /\
    cout c' = cout c /\ extractions c' = S (extractions c).
Proof.
  intros H.
  destruct (extract_int_malformed 0 c H)
    as (v' & c' & Heq & Hv & Hf & Hout & _ & Hn).
  exists c'. assert (v' = 0) as -> by (destruct Hv; assumption).
  repeat split; assumption.
Qed.

(** C6: on malformed input [getValueFromUser] prompts once, extracts
    once and returns 0 with the stream failed; [main] prints the double
    of that 0; and in the input/output example every value-initialised
    variable read after the failure is 0 as well. *)
Theorem malformed_input_gives_zero (c : console) :
  malformed c ->
  (exists c',
      getValueFromUser c = (0, c') /\ cin_fail c' = true /\
      cout c' = cout c ++ [TStr "Enter an integer: "] /\
      extractions c' = S (extractions c)) /\
  (exists c',
      main_return_values c = (0, c') /\
      cout c' = cout c ++ [TStr "Enter an integer: "; TInt 0;
                           TStr " doubled is: "; TInt 0; TStr "\n"] /\
      extractions c' = S (extractions c)) /\
  (exists c', main_extractions c = ([0; 0; 0; 0; 0], c')).
Proof.
  intros H. split; [|split].
  - unfold getValueFromUser.
    destruct (extract_zero_malformed _
                (print_keeps_malformed [TStr "Enter an integer: "] c H))
      as (c' & Heq & Hf & Hout & Hn).
    exists c'. repeat split; assumption.
  - unfold main_return_values, getValueFromUser.
    destruct (extract_zero_malformed _
                (print_keeps_malformed [TStr "Enter an integer: "] c H))
      as (c' & Heq & Hf & Hout & Hn).
    rewrite Heq. eexists. split; [reflexivity|].
    cbn. rewrite Hout. cbn. rewrite <- app_assoc. split; [reflexivity|].
    exact Hn.
  - unfold main_extractions.
    destruct (extract_zero_malformed _
                (print_keeps_malformed [TStr "Enter a number: "] c H))
      as (c2 & -> & Hf2 & _).
    destruct (extract_zero_malformed _
                (failed_is_malformed
                   (print [TStr "Enter two numbers separated by a space: "]
                      (print [TStr "You entered "; TInt 0; TStr "\n"] c2))
                   Hf2))
      as (c5 & -> & Hf5 & _).
    destruct (extract_zero_malformed _ (failed_is_malformed c5 Hf5))
      as (c6 & -> & Hf6 & _).
    destruct (extract_zero_malformed _
                (failed_is_malformed
                   (print [TStr "Enter two numbers: "]
                      (print [TStr "You entered "; TInt 0; TStr " and ";
                              TInt 0; TStr "\n"] c6))
                   Hf6))
      as (c9 & -> & Hf9 & _).
    destruct (extract_zero_malformed _ (failed_is_malformed c9 Hf9))
      as (c10 & -> & _).
    eexists. reflexivity.
Qed.

Lemma malformed_input_abc :
  malformed (console_of_input "abc") /\
  exists c',
    main_return_values (console_of_input "abc") = (0, c') /\
    cout c' = [TStr "Enter an integer: "; TInt 0;
               TStr " doubled is: "; TInt 0; TStr "\n"] /\
    extractions c' = 1%nat.
Proof.
  assert (H : malformed (console_of_input "abc")) by (right; reflexivity).
  split; [exact H|].
  exact (proj1 (proj2 (malformed_input_gives_zero _ H))).
Defined.

End MalformedInput.

(** ** The store *)

Section Store.

Lemma fresh_not_allocated (m : machine) :
  mem m !! fresh (dom (mem m)) = None.
Proof. apply not_elem_of_dom, is_fresh. Qed.

Lemma fresh_differs (m : machine) (l : loc) (v : Z) :
  mem m !! l = Some v -> fresh (dom (mem m)) <> l.
Proof.
  intros H Heq. rewrite <- Heq, fresh_not_allocated in H. discriminate.
Qed.

Lemma alloc_spec (v : Z) (m : machine) :
  alloc v m
  = Ok (fresh (dom (mem m)))
       (mkMachine (<[fresh (dom (mem m)) := v]> (mem m)) (con m)).
Proof. reflexivity. Qed.

Lemma load_spec (l : loc) (v : Z) (m : machine) :
  mem m !! l = Some v -> load l m = Ok v m.
Proof. intros H. unfold load. rewrite H. reflexivity. Qed.

Lemma load_dangling (l : loc) (m : machine) :
  mem m !! l = None -> load l m = Undefined m.
Proof. intros H. unfold load. rewrite H. reflexivity. Qed.

Lemma assign_spec (l : loc) (v w : Z) (m : machine) :
  mem m !! l = Some v ->
  assign l w m = Ok tt (mkMachine (<[l := w]> (mem m)) (con m)).
Proof. intros H. unfold assign. rewrite H. reflexivity. Qed.

Lemma free_spec (l : loc) (v : Z) (m : machine) :
  mem m !! l = Some v ->
  free l m = Ok tt (mkMachine (delete l (mem m)) (con m)).
Proof. intros H. unfold free. rewrite H. reflexivity. Qed.

Lemma increment_and_print_spec (i : loc) (v : Z) (m : machine) :
  mem m !! i = Some v ->
  increment_and_print i m
  = Ok tt (mkMachine (<[i := int_incr v]> (mem m))
                     (print [TInt (int_incr v); TStr "\n"] (con m))).
Proof.
  intros H. unfold increment_and_print, bind.
  rewrite (load_spec i v m H), (assign_spec i v _ m H). reflexivity.
Qed.

(** Copying a closure with a by-copy member makes a new member, at a
    location of its own, holding the value the original has now. *)
Lemma copy_by_copy_spec (c : loc) (b : loc -> M machine unit) (n : Z)
      (m : machine) :
  mem m !! c = Some n ->
  copy (mkClosure (ByCopy c) b) m
  = Ok (mkClosure (ByCopy (fresh (dom (mem m)))) b)
       (mkMachine (<[fresh (dom (mem m)) := n]> (mem m)) (con m)).
Proof.
  intros H. unfold copy, bind. cbn.
  rewrite (load_spec c n m H). reflexivity.
Qed.

(** Copying a closure with a reference member makes no new object: the
    copy refers to the same one. *)
Lemma copy_by_reference_spec (t : loc) (b : loc -> M machine unit)
      (m : machine) :
  copy (mkClosure (ByReference t) b) m = Ok (mkClosure (ByReference t) b) m.
Proof. reflexivity. Qed.

Lemma capture_by_value_spec (x : loc) (b : loc -> M machine unit) (v : Z)
      (m : machine) :
  mem m !! x = Some v ->
  capture_by_value x b m
  = Ok (mkClosure (ByCopy (fresh (dom (mem m)))) b)
       (mkMachine (<[fresh (dom (mem m)) := v]> (mem m)) (con m)).
Proof.
  intros H. unfold capture_by_value, bind.
  rewrite (load_spec x v m H). reflexivity.
Qed.

End Store.

(** ** Copies of a counting lambda *)

Section CountingCopies.
Import LambdaCopies.

Lemma turns_of_cons_same (who : bool) (turns : list bool) :
  turns_of who (who :: turns) = S (turns_of who turns).
Proof.
  unfold turns_of. rewrite filter_cons_True by reflexivity. reflexivity.
Qed.

Lemma turns_of_cons_other (who t : bool) (turns : list bool) :
  t <> who -> turns_of who (t :: turns) = turns_of who turns.
Proof.
  intros H. unfold turns_of. rewrite filter_cons_False by exact H.
  reflexivity.
Qed.

(** Two counting closures with members at different locations, called in
    any order, count separately. *)
Lemma interleaved_calls (c c' : loc) (turns : list bool) :
  c <> c' ->
  forall (m : machine) (a b : Z),
    mem m !! c = Some a -> mem m !! c' = Some b ->
    exists m',
      sequence
        (map (call_either (mkClosure (ByCopy c) increment_and_print)
                          (mkClosure (ByCopy c') increment_and_print))
             turns) m
      = Ok tt m' /\
      mem m' !! c = Some (Nat.iter (turns_of true turns) int_incr a) /\
      mem m' !! c' = Some (Nat.iter (turns_of false turns) int_incr b) /\
      cout (con m') = cout (con m) ++ two_counters a b turns /\
      (forall l, l <> c -> l <> c' -> mem m' !! l = mem m !! l).
Proof.
  intros Hne. induction turns as [|t turns IH]; intros m a b Ha Hb.
  - exists m. cbn. rewrite app_nil_r. repeat split; assumption.
  - cbn [map sequence]. unfold bind at 1.
    destruct t; unfold call_either at 1, invoke at 1; cbn [captured cell body].
    + rewrite (increment_and_print_spec c a m Ha).
      destruct (IH (mkMachine (<[c := int_incr a]> (mem m))
                      (print [TInt (int_incr a); TStr "\n"] (con m)))
                   (int_incr a) b)
        as (m' & Hrun & Hc & Hc' & Hout & Hrest).
      { cbn. apply lookup_insert_eq. }
      { cbn. rewrite lookup_insert_ne by exact Hne. exact Hb. }
      exists m'. split; [exact Hrun|].
      rewrite turns_of_cons_same, turns_of_cons_other by discriminate.
      rewrite Nat.iter_succ_r.
      split; [exact Hc|]. split; [exact Hc'|]. split.
      * rewrite Hout. cbn. rewrite <- app_assoc. reflexivity.
      * intros l Hl Hl'. rewrite (Hrest l Hl Hl'). cbn.
        apply lookup_insert_ne. congruence.
    + rewrite (increment_and_print_spec c' b m Hb).
      destruct (IH (mkMachine (<[c' := int_incr b]> (mem m))
                      (print [TInt (int_incr b); TStr "\n"] (con m)))
                   a (int_incr b))
        as (m' & Hrun & Hc & Hc' & Hout & Hrest).
      { cbn. rewrite lookup_insert_ne by congruence. exact Ha. }
      { cbn. apply lookup_insert_eq. }
      exists m'. split; [exact Hrun|].
      rewrite turns_of_cons_same, turns_of_cons_other by discriminate.
      rewrite Nat.iter_succ_r.
      split; [exact Hc|]. split; [exact Hc'|]. split.
      * rewrite Hout. cbn. rewrite <- app_assoc. reflexivity.
      * intros l Hl Hl'. rewrite (Hrest l Hl Hl'). cbn.
        apply lookup_insert_ne. congruence.
Qed.

(** C3: a counting lambda is called once and then copied.  Whatever the
    order in which the original and the copy are called afterwards, each
    counts on from the value the counter had when the copy was made, and
    neither sees the other's increments.  In [main] the calls print 1,
    then 2 and 2. *)
Theorem copied_lambda_counts_on_its_own
        (m : machine) (c : loc) (n : Z) (turns : list bool) :
  mem m !! c = Some n ->
  let count := mkClosure (ByCopy c) increment_and_print in
  (exists m',
      (invoke count;;
       let* otherCount := copy count in
       sequence (map (call_either count otherCount) turns)) m
      = Ok tt m' /\
      cout (con m')
      = cout (con m) ++ [TInt (int_incr n); TStr "\n"]
          ++ two_counters (int_incr n) (int_incr n) turns /\
      mem m' !! c
      = Some (Nat.iter (turns_of true turns) int_incr (int_incr n)) /\
      exists c',
        c' <> c /\
        mem m' !! c'
        = Some (Nat.iter (turns_of false turns) int_incr (int_incr n))) /\
  two_counters 1 1 [true; false] = [TInt 2; TStr "\n"; TInt 2; TStr "\n"] /\
  (forall k,
      exists m',
        basic_copy_example (initial k) = Ok tt m' /\
        cout (con m')
        = cout k ++ [TStr "Basic lambda copy example...\n";
                     TInt 1; TStr "\n"; TInt 2; TStr "\n";
                     TInt 2; TStr "\n"]).
Proof.
  intros Hn count. split; [|split].
  - unfold bind at 1. unfold invoke at 1. subst count. cbn [captured cell body].
    rewrite (increment_and_print_spec c n m Hn).
    set (m1 := mkMachine (<[c := int_incr n]> (mem m))
                 (print [TInt (int_incr n); TStr "\n"] (con m))).
    assert (H1 : mem m1 !! c = Some (int_incr n)) by apply lookup_insert_eq.
    unfold bind at 1. rewrite (copy_by_copy_spec c _ _ m1 H1).
    set (c' := fresh (dom (mem m1))).
    assert (Hne : c <> c').
    { intros Heq. apply (fresh_differs m1 c _ H1). symmetry. exact Heq. }
    destruct (interleaved_calls c c' turns Hne
                (mkMachine (<[c' := int_incr n]> (mem m1)) (con m1))
                (int_incr n) (int_incr n))
      as (m' & Hrun & Hc & Hc' & Hout & _).
    { cbn. rewrite lookup_insert_ne by congruence. exact H1. }
    { cbn. apply lookup_insert_eq. }
    exists m'. split; [exact Hrun|]. split.
    { rewrite Hout. cbn. rewrite <- app_assoc. reflexivity. }
    split; [exact Hc|].
    exists c'. split; [congruence | exact Hc'].
  - reflexivity.
  - intros k. eexists. split; [reflexivity|].
    cbn. rewrite <- ?app_assoc. reflexivity.
Qed.

End CountingCopies.

(** ** Calling one closure again and again *)

Section RepeatedCalls.

(** A body that reads the object it is given, writes [g] of what it read
    back to it, and prints. *)
Variable b : loc -> M machine unit.
Variable g : Z -> Z.
Variable shown : Z -> list token.
Hypothesis b_spec :
  forall (t : loc) (a : Z) (m : machine),
    mem m !! t = Some a ->
    b t m = Ok tt (mkMachine (<[t := g a]> (mem m)) (print (shown a) (con m))).

(** After [k] calls the object holds [g] applied [k] times, no other
    object has changed, and no object was created or destroyed. *)
Lemma repeated_calls (f : closure) (k : nat) :
  body f = b ->
  forall (m : machine) (a : Z),
    mem m !! cell (captured f) = Some a ->
    exists m',
      repeat_stmt k (invoke f) m = Ok tt m' /\
      mem m' !! cell (captured f) = Some (Nat.iter k g a) /\
      (forall l, l <> cell (captured f) -> mem m' !! l = mem m !! l) /\
      dom (mem m') = dom (mem m).
Proof.
  intros Hbody. induction k as [|k IH]; intros m a Ha.
  - exists m. cbn. repeat split; assumption.
  - cbn [repeat_stmt]. unfold bind at 1, invoke at 1.
    rewrite Hbody, (b_spec _ a m Ha).
    destruct (IH (mkMachine (<[cell (captured f) := g a]> (mem m))
                    (print (shown a) (con m))) (g a))
      as (m' & Hrun & Hcell & Hrest & Hdom).
    { cbn. apply lookup_insert_eq. }
    exists m'. split; [exact Hrun|].
    rewrite Nat.iter_succ_r. split; [exact Hcell|]. split.
    + intros l Hl. rewrite (Hrest l Hl). cbn.
      apply lookup_insert_ne. congruence.
    + rewrite Hdom. cbn. apply dom_insert_lookup_L. eauto.
Qed.

End RepeatedCalls.

Lemma map_replicate {A B} (f : A -> B) (x : A) (k : nat) :
  map f (replicate k x) = replicate k (f x).
Proof.
  induction k as [|k IH]; cbn; [reflexivity | rewrite IH; reflexivity].
Qed.

Lemma sequence_replicate {S} (c : M S unit) (k : nat) :
  sequence (replicate k c) = repeat_stmt k c.
Proof.
  induction k as [|k IH]; cbn; [reflexivity | rewrite IH; reflexivity].
Qed.

(** ** A by-value capture does not touch the captured variable *)

Section MutableCaptures.
Import LambdaCaptures.

Lemma throwShell_body_spec (t : loc) (a : Z) (m : machine) :
  mem m !! t = Some a ->
  throwShell_body t m
  = Ok tt (mkMachine (<[t := int_decr a]> (mem m))
             (print [TStr "Threw shell! "; TInt (int_decr a);
                     TStr " shells left.\n"] (con m))).
Proof.
  intros H. unfold throwShell_body, bind.
  rewrite (load_spec t a m H), (assign_spec t a _ m H). reflexivity.
Qed.

Lemma throwBanana_body_spec (t : loc) (a : Z) (m : machine) :
  mem m !! t = Some a ->
  throwBanana_body t m
  = Ok tt (mkMachine (<[t := int_decr a]> (mem m))
             (print [TStr "Threw banana! "; TStr " bananas left.\n"]
                    (con m))).
Proof.
  intros H. unfold throwBanana_body, bind.
  rewrite (load_spec t a m H), (assign_spec t a _ m H). reflexivity.
Qed.

(** C9: [throwShell] holds a copy of [shells] in a member of its own, and
    however often it is called, only that member is decremented: the
    variable [shells] keeps its value.  In [main], where [shells] is 3,
    the line printed after the two calls shows 3. *)
Theorem throwShell_leaves_shells
        (m : machine) (shells : loc) (v : Z) (k : nat) :
  mem m !! shells = Some v ->
  (exists throwShell m1 m2,
      make_throwShell shells m = Ok throwShell m1 /\
      mem m1 !! shells = Some v /\
      repeat_stmt k (invoke throwShell) m1 = Ok tt m2 /\
      mem m2 !! shells = Some v /\
      cell (captured throwShell) <> shells /\
      mem m2 !! cell (captured throwShell) = Some (Nat.iter k int_decr v)) /\
  (forall c,
      exists shells3 m',
        mutable_captures (initial c) = Ok shells3 m' /\
        mem m' !! shells3 = Some 3 /\
        cout (con m')
        = cout c ++ [TStr "Threw shell! "; TInt 2; TStr " shells left.\n";
                     TStr "Threw shell! "; TInt 1; TStr " shells left.\n";
                     TStr "\nThis will be wrong...\n";
                     TInt 3; TStr " shells left.\n\n"]).
Proof.
  intros Hv. split.
  - unfold make_throwShell. rewrite (capture_by_value_spec shells _ v m Hv).
    set (t := fresh (dom (mem m))).
    assert (Hne : t <> shells) by exact (fresh_differs m shells v Hv).
    set (m1 := mkMachine (<[t := v]> (mem m)) (con m)).
    assert (H1 : mem m1 !! shells = Some v).
    { cbn. rewrite lookup_insert_ne by exact Hne. exact Hv. }
    destruct (repeated_calls throwShell_body int_decr _ throwShell_body_spec
                (mkClosure (ByCopy t) throwShell_body) k eq_refl m1 v)
      as (m2 & Hrun & Hcell & Hrest & _).
    { cbn. apply lookup_insert_eq. }
    exists (mkClosure (ByCopy t) throwShell_body), m1, m2.
    split; [reflexivity|]. split; [exact H1|]. split; [exact Hrun|].
    split; [|split; [exact Hne | exact Hcell]].
    rewrite Hrest; [exact H1|]. cbn. congruence.
  - intros c. eexists _, _. split; [reflexivity|].
    split; [reflexivity|]. cbn. rewrite <- ?app_assoc. reflexivity.
Qed.

End MutableCaptures.

(** ** Captures by reference and reference wrappers *)

Section SharedCounter.
Import LambdaCaptures LambdaCopies.

(** Whatever is obtained by copying a closure that captures by reference
    is that closure again. *)
Lemma copies_by_reference (t : loc) (b : loc -> M machine unit)
      (copies : list closure) :
  Forall (fun g => exists m0 m1,
              copy (mkClosure (ByReference t) b) m0 = Ok g m1) copies ->
  copies = replicate (length copies) (mkClosure (ByReference t) b).
Proof.
  induction 1 as [|g copies (m0 & m1 & Hcopy) _ IH]; [reflexivity|].
  rewrite copy_by_reference_spec in Hcopy. injection Hcopy as <- _.
  cbn. f_equal. exact IH.
Qed.

(** What [k] calls through [std::ref] print. *)
Lemma myInvoke_ref_counts (c : loc) (k : nat) :
  forall (m : machine) (a : Z),
    mem m !! c = Some a ->
    exists m',
      repeat_stmt k (myInvoke_ref (mkClosure (ByCopy c) increment_and_print)) m
      = Ok tt m' /\
      mem m' !! c = Some (Nat.iter k int_incr a) /\
      cout (con m') = cout (con m) ++ one_counter k a /\
      dom (mem m') = dom (mem m).
Proof.
  induction k as [|k IH]; intros m a Ha.
  - exists m. cbn. rewrite app_nil_r. repeat split. exact Ha.
  - cbn [repeat_stmt]. unfold bind at 1.
    unfold myInvoke_ref at 1, myInvoke at 1, invoke at 1.
    cbn [captured cell body].
    rewrite (increment_and_print_spec c a m Ha).
    destruct (IH (mkMachine (<[c := int_incr a]> (mem m))
                    (print [TInt (int_incr a); TStr "\n"] (con m)))
                 (int_incr a))
      as (m' & Hrun & Hc & Hout & Hdom).
    { cbn. apply lookup_insert_eq. }
    exists m'. split; [exact Hrun|]. rewrite Nat.iter_succ_r.
    split; [exact Hc|]. split.
    + rewrite Hout. cbn. rewrite <- app_assoc. reflexivity.
    + rewrite Hdom. cbn. apply dom_insert_lookup_L. eauto.
Qed.

(** C4: the copies of a lambda that captures [bananas] by reference all
    refer to the one variable; calling them, in any number and order,
    decrements that variable once per call, creates no other counter, and
    every copy reads the same value afterwards.  Calls through
    [std::ref] all reach the one closure, whose member counts every call.
    In [main], two calls of [throwBanana] leave [bananas] at 1, and the
    three wrapped calls of [count4] print 1, 2, 3. *)
Theorem reference_capture_shares_one_counter
        (m : machine) (bananas : loc) (n : Z) (copies : list closure) :
  mem m !! bananas = Some n ->
  Forall (fun g => exists m0 m1,
              copy (mkClosure (ByReference bananas) throwBanana_body) m0
              = Ok g m1) copies ->
  (exists m',
      sequence (map invoke copies) m = Ok tt m' /\
      mem m' !! bananas = Some (Nat.iter (length copies) int_decr n) /\
      dom (mem m') = dom (mem m) /\
      Forall (fun g =>
                load (cell (captured g)) m'
                = Ok (Nat.iter (length copies) int_decr n) m') copies) /\
  (forall (c : loc) (a : Z) (k : nat),
      mem m !! c = Some a ->
      exists m',
        repeat_stmt k (myInvoke_ref (mkClosure (ByCopy c) increment_and_print))
                    m
        = Ok tt m' /\
        mem m' !! c = Some (Nat.iter k int_incr a) /\
        cout (con m') = cout (con m) ++ one_counter k a /\
        dom (mem m') = dom (mem m)) /\
  (forall c,
      exists bananas3 m',
        capture_by_reference_example (initial c) = Ok bananas3 m' /\
        mem m' !! bananas3 = Some 1) /\
  (forall c,
      exists m',
        reference_wrapped_example (initial c) = Ok tt m' /\
        cout (con m')
        = cout c ++ [TStr "\nReference wrapped example...\n";
                     TInt 1; TStr "\n"; TInt 2; TStr "\n";
                     TInt 3; TStr "\n"]).
Proof.
  intros Hn Hcopies. split; [|split; [|split]].
  - pose proof (copies_by_reference _ _ _ Hcopies) as Heq.
    remember (length copies) as k eqn:Hk. clear Hk Hcopies. subst copies.
    rewrite map_replicate, sequence_replicate.
    destruct (repeated_calls throwBanana_body int_decr _ throwBanana_body_spec
                (mkClosure (ByReference bananas) throwBanana_body)
                k eq_refl m n Hn)
      as (m' & Hrun & Hcell & _ & Hdom).
    exists m'. split; [exact Hrun|]. split; [exact Hcell|].
    split; [exact Hdom|].
    apply Forall_replicate. cbn. apply load_spec. exact Hcell.
  - intros c a k Ha. apply myInvoke_ref_counts. exact Ha.
  - intros c. eexists _, _. split; reflexivity.
  - intros c. eexists. split; [reflexivity|].
    cbn. rewrite <- ?app_assoc. reflexivity.
Qed.

End SharedCounter.

(** ** A reference capture that outlives its object *)

Section Dangling.
Import DanglingCapture.

Lemma sayNumber_alive (p : loc) (v : Z) (m : machine) :
  mem m !! p = Some v ->
  invoke (mkClosure (ByReference p) sayNumber_body) m
  = Ok tt (mkMachine (mem m)
             (print [TStr "Your number is "; TInt v; TStr "\n"] (con m))).
Proof.
  intros H. unfold invoke, sayNumber_body, bind. cbn.
  rewrite (load_spec p v m H). reflexivity.
Qed.

Lemma sayNumber_dangling (p : loc) (m : machine) :
  mem m !! p = None ->
  invoke (mkClosure (ByReference p) sayNumber_body) m = Undefined m.
Proof.
  intros H. unfold invoke, sayNumber_body, bind. cbn.
  rewrite (load_dangling p m H). reflexivity.
Qed.

(** C8: once the object a lambda captured by reference is gone, a call of
    the lambda reads the dead object, and so does every later call: the
    behaviour is undefined from the first one.  [main] creates
    [sayNumber] on [*ptr], deletes [ptr], and then calls it. *)
Theorem dangling_capture_reads_dead_object
        (m : machine) (p : loc) (k : nat) :
  mem m !! p = None -> (0 < k)%nat ->
  invoke (mkClosure (ByReference p) sayNumber_body) m = Undefined m /\
  load p m = Undefined m /\
  repeat_stmt k (invoke (mkClosure (ByReference p) sayNumber_body)) m
  = Undefined m /\
  (forall (m0 : machine) (q : loc) (v : Z),
      mem m0 !! q = Some v ->
      (let* f := printNumber q in free q;; invoke f) m0
      = Undefined (mkMachine (delete q (mem m0)) (con m0))) /\
  (forall garbage c,
      exists ptr sayNumber m',
        main_until_delete garbage (initial c) = Ok (ptr, sayNumber) m' /\
        captured sayNumber = ByReference ptr /\
        mem m' !! ptr = None /\
        invoke sayNumber m' = Undefined m' /\
        main garbage (initial c) = Undefined m').
Proof.
  intros Hp Hk. split; [apply sayNumber_dangling; exact Hp|].
  split; [apply load_dangling; exact Hp|]. split; [|split].
  - destruct k as [|k]; [lia|]. cbn [repeat_stmt]. unfold bind.
    rewrite (sayNumber_dangling p m Hp). reflexivity.
  - intros m0 q v Hq. unfold printNumber, capture_by_reference, bind, ret.
    rewrite (free_spec q v m0 Hq). apply sayNumber_dangling.
    cbn. apply lookup_delete_eq.
  - intros garbage c. eexists _, _, _. split; [reflexivity|].
    repeat split.
Qed.

Lemma dangling_capture_after_delete :
  mem (initial no_input) !! 1%positive = None /\ (0 < 4)%nat /\
  repeat_stmt 4 (invoke (mkClosure (ByReference 1%positive) sayNumber_body))
              (initial no_input)
  = Undefined (initial no_input).
Proof.
  assert (Hp : mem (initial no_input) !! 1%positive = None) by reflexivity.
  assert (Hk : (0 < 4)%nat) by lia.
  pose proof (dangling_capture_reads_dead_object _ 1%positive 4 Hp Hk)
    as (_ & _ & Hrun & _).
  exact (conj Hp (conj Hk Hrun)).
Defined.

End Dangling.

(** ** Recursion until the stack is exhausted *)

Section Recursion.
Import StackOverflow.

Lemma guard_holds_after_increment (g : Z) :
  0 <= g < INT_MAX -> (0 <? int_incr g) = true.
Proof.
  intros Hg. rewrite int_incr_in_range by (unfold INT_MIN, INT_MAX in *; lia).
  apply Z.ltb_lt. lia.
Qed.

Lemma eat_stack_exhausts (frames : nat) :
  forall (g : Z) (out : list token),
    0 <= g -> g + Z.of_nat frames <= INT_MAX ->
    eat_stack frames g out
    = StackExhausted (g + Z.of_nat frames) (out ++ counting frames g).
Proof.
  induction frames as [|frames IH]; intros g out Hg Hmax.
  - cbn. rewrite Z.add_0_r, app_nil_r. reflexivity.
  - cbn [eat_stack counting].
    rewrite guard_holds_after_increment by lia.
    rewrite int_incr_in_range by (unfold INT_MIN, INT_MAX in *; lia).
    rewrite IH by lia. rewrite <- app_assoc. cbn.
    f_equal. lia.
Qed.

Lemma counting_only_numbers (frames : nat) :
  forall (g : Z) (s : string), TStr s ∉ counting frames g.
Proof.
  induction frames as [|frames IH]; intros g s; cbn.
  - apply not_elem_of_nil.
  - intros H. apply elem_of_cons in H as [H | H]; [discriminate|].
    apply elem_of_cons in H as [H | H]; [discriminate|].
    exact (IH _ _ H).
Qed.

(** C7: [eat_stack] increments and prints the counter and, the counter
    being positive after the increment, calls itself; with room for
    [frames] activations it prints 1, ..., [frames] and exhausts the
    stack: it does not return, and the line after the recursive call is
    never printed.  The stack is taken to hold fewer activations than an
    [int] can count. *)
Theorem eat_stack_never_returns (frames : nat) (g : Z) (out : list token) :
  0 <= g -> g + Z.of_nat frames <= INT_MAX ->
  (forall g', g <= g' < g + Z.of_nat frames -> (0 <? int_incr g') = true) /\
  eat_stack frames g out
  = StackExhausted (g + Z.of_nat frames) (out ++ counting frames g) /\
  (forall g' out', eat_stack frames g out <> Returned g' out') /\
  (TStr "hi" ∉ counting frames g) /\
  (g = 0 -> out = [] ->
   main frames = StackExhausted (Z.of_nat frames) (counting frames 0)).
Proof.
  intros Hg Hmax. split; [|split; [|split; [|split]]].
  - intros g' Hg'. apply guard_holds_after_increment. lia.
  - apply eat_stack_exhausts; assumption.
  - intros g' out'. rewrite eat_stack_exhausts by assumption. discriminate.
  - apply counting_only_numbers.
  - intros -> ->. unfold main. rewrite eat_stack_exhausts by assumption.
    reflexivity.
Qed.

Lemma eat_stack_three_frames :
  0 <= 0 /\ 0 + Z.of_nat 3 <= INT_MAX /\
  main 3
  = StackExhausted 3 [TInt 1; TEndl; TInt 2; TEndl; TInt 3; TEndl].
Proof.
  assert (H0 : 0 <= 0) by lia.
  assert (H3 : 0 + Z.of_nat 3 <= INT_MAX) by (vm_compute; discriminate).
  pose proof (eat_stack_never_returns 3 0 [] H0 H3) as (_ & _ & _ & _ & Hmain).
  exact (conj H0 (conj H3 (Hmain eq_refl eq_refl))).
Defined.

(** Why the bound on the stack: at [INT_MAX] the increment wraps to a
    negative number and the guard is false.  No stack holds the 2^31 - 1
    activations it takes to get there. *)
Lemma eat_stack_counter_wraps (out : list token) :
  eat_stack 1 INT_MAX out
  = Returned INT_MIN (out ++ [TInt INT_MIN; TEndl; TStr "hi"; TEndl]).
Proof. cbn. rewrite <- app_assoc. reflexivity. Qed.

End Recursion.

(** ** The examples on concrete states *)

Section Examples.
Import LambdaCopies LambdaCaptures.

(** The whole of the lambda-copies [main]: 1 2 2, then 1 1 1 through the
    unintended copies, then 1 2 3 twice. *)
Example lambda_copies_main_output :
  exists m',
    LambdaCopies.main (initial no_input) = Ok 0 m' /\
    cout (con m')
    = [TStr "Basic lambda copy example...\n";
       TInt 1; TStr "\n"; TInt 2; TStr "\n"; TInt 2; TStr "\n";
       TStr "\nBasic lambda copy example...\n";
       TInt 1; TStr "\n"; TInt 1; TStr "\n"; TInt 1; TStr "\n";
       TStr "\nType alignment example...\n";
       TInt 1; TStr "\n"; TInt 2; TStr "\n"; TInt 3; TStr "\n";
       TStr "\nReference wrapped example...\n";
       TInt 1; TStr "\n"; TInt 2; TStr "\n"; TInt 3; TStr "\n"].
Proof. eexists. split; vm_compute; reflexivity. Qed.

Lemma copied_lambda_from_zero :
  mem (mkMachine {[1%positive := 0]} no_input) !! 1%positive = Some 0 /\
  exists m',
    (let count := mkClosure (ByCopy 1%positive) increment_and_print in
     invoke count;;
     let* otherCount := copy count in
     sequence (map (call_either count otherCount) [true; false]))
      (mkMachine {[1%positive := 0]} no_input)
    = Ok tt m' /\
    cout (con m') = [TInt 1; TStr "\n"; TInt 2; TStr "\n"; TInt 2; TStr "\n"].
Proof.
  assert (H : mem (mkMachine {[1%positive := 0]} no_input) !! 1%positive
              = Some 0) by reflexivity.
  split; [exact H|].
  destruct (copied_lambda_counts_on_its_own _ 1%positive 0 [true; false] H)
    as [(m' & Hrun & Hout & _) _].
  exists m'. split; [exact Hrun | exact Hout].
Defined.

Lemma throwShell_twice_from_three :
  mem (mkMachine {[1%positive := 3]} no_input) !! 1%positive = Some 3 /\
  exists throwShell m1 m2,
    make_throwShell 1%positive (mkMachine {[1%positive := 3]} no_input)
    = Ok throwShell m1 /\
    repeat_stmt 2 (invoke throwShell) m1 = Ok tt m2 /\
    mem m2 !! 1%positive = Some 3.
Proof.
  assert (H : mem (mkMachine {[1%positive := 3]} no_input) !! 1%positive
              = Some 3) by reflexivity.
  split; [exact H|].
  destruct (throwShell_leaves_shells _ 1%positive 3 2 H)
    as [(f & m1 & m2 & Hmake & _ & Hrun & Hshells & _) _].
  exists f, m1, m2. exact (conj Hmake (conj Hrun Hshells)).
Defined.

Lemma throwBanana_two_copies :
  let throwBanana := mkClosure (ByReference 1%positive) throwBanana_body in
  let m := mkMachine {[1%positive := 3]} no_input in
  mem m !! 1%positive = Some 3 /\
  Forall (fun g => exists m0 m1, copy throwBanana m0 = Ok g m1)
         [throwBanana; throwBanana] /\
  exists m',
    sequence (map invoke [throwBanana; throwBanana]) m = Ok tt m' /\
    mem m' !! 1%positive = Some (Nat.iter 2 int_decr 3).
Proof.
  intros throwBanana m.
  assert (H : mem m !! 1%positive = Some 3) by reflexivity.
  assert (Hcopies : Forall (fun g => exists m0 m1,
                                copy throwBanana m0 = Ok g m1)
                           [throwBanana; throwBanana]).
  { repeat constructor; exists m, m; reflexivity. }
  split; [exact H|]. split; [exact Hcopies|].
  destruct (reference_capture_shares_one_counter m 1%positive 3 _ H Hcopies)
    as [(m' & Hrun & Hcell & _) _].
  exists m'. exact (conj Hrun Hcell).
Defined.

End Examples.

(** * Further properties of the examples *)

(** ** Passing a counting lambda to [myInvoke] *)

Section UnintendedCopies.
Import LambdaCopies.

(** One call of [myInvoke] with the lambda itself: the temporary copy is
    incremented and destroyed; the store is as before. *)
Lemma myInvoke_lambda_spec (c : loc) (n : Z) (m : machine) :
  mem m !! c = Some n ->
  myInvoke_lambda (mkClosure (ByCopy c) increment_and_print) m
  = Ok tt (mkMachine (mem m)
             (print [TInt (int_incr n); TStr "\n"] (con m))).
Proof.
  intros Hc. unfold myInvoke_lambda. unfold bind at 1.
  rewrite (copy_by_copy_spec c _ n m Hc).
  set (l := fresh (dom (mem m))).
  assert (Hl : mem m !! l = None) by apply fresh_not_allocated.
  unfold bind at 1. unfold myInvoke, invoke. cbn [captured cell body].
  rewrite (increment_and_print_spec l n); [|cbn; apply lookup_insert_eq].
  unfold destroy. cbn [captured mem con].
  rewrite (free_spec l (int_incr n)); [|cbn; apply lookup_insert_eq].
  cbn [mem con]. rewrite insert_insert_eq, delete_insert_id by exact Hl.
  reflexivity.
Qed.

(** X1: however often [myInvoke] is called with the lambda itself, every
    call prints the same number, one more than the lambda's counter,
    which never moves, and the store is left as it was; called with a
    [std::function] holding the lambda, the calls count on. *)
Theorem myInvoke_with_lambda_never_counts
        (m : machine) (c : loc) (n : Z) (k : nat) :
  mem m !! c = Some n ->
  (exists m',
      repeat_stmt k (myInvoke_lambda (mkClosure (ByCopy c) increment_and_print))
                  m
      = Ok tt m' /\
      mem m' = mem m /\
      cout (con m')
      = cout (con m) ++ concat (replicate k [TInt (int_incr n); TStr "\n"])) /\
  (exists m',
      repeat_stmt k
        (myInvoke_function (mkClosure (ByCopy c) increment_and_print)) m
      = Ok tt m' /\
      mem m' !! c = Some (Nat.iter k int_incr n) /\
      cout (con m') = cout (con m) ++ one_counter k n).
Proof.
  intros Hc. split.
  - revert m Hc. induction k as [|k IH]; intros m Hc.
    + exists m. cbn. rewrite app_nil_r. repeat split.
    + cbn [repeat_stmt]. unfold bind at 1.
      rewrite (myInvoke_lambda_spec c n m Hc).
      destruct (IH (mkMachine (mem m)
                      (print [TInt (int_incr n); TStr "\n"] (con m))) Hc)
        as (m' & Hrun & Hmem & Hout).
      exists m'. split; [exact Hrun|]. split; [exact Hmem|].
      rewrite Hout. cbn. rewrite <- app_assoc. reflexivity.
  - destruct (myInvoke_ref_counts c k m n Hc) as (m' & Hrun & Hcell & Hout & _).
    exists m'. repeat split; assumption.
Qed.

Lemma myInvoke_with_lambda_three_times :
  mem (mkMachine {[1%positive := 0]} no_input) !! 1%positive = Some 0 /\
  exists m',
    repeat_stmt 3
      (myInvoke_lambda (mkClosure (ByCopy 1%positive) increment_and_print))
      (mkMachine {[1%positive := 0]} no_input)
    = Ok tt m' /\
    mem m' = {[1%positive := 0]} /\
    cout (con m') = [TInt 1; TStr "\n"; TInt 1; TStr "\n"; TInt 1; TStr "\n"].
Proof.
  assert (H : mem (mkMachine {[1%positive := 0]} no_input) !! 1%positive
              = Some 0) by reflexivity.
  split; [exact H|].
  destruct (myInvoke_with_lambda_never_counts _ 1%positive 0 3 H)
    as [(m' & Hrun & Hmem & Hout) _].
  exists m'. exact (conj Hrun (conj Hmem Hout)).
Defined.

End UnintendedCopies.

(** ** [repeat1] to [repeat4] *)

Section Repeat.
Import Lambdas.

Lemma repeat_from_spec {S} (fn : Z -> M S unit) (repetitions : Z)
      (fuel : nat) :
  repetitions <= INT_MAX ->
  forall (i : Z) (s : S),
    INT_MIN <= i ->
    (Z.to_nat (repetitions - i) < fuel)%nat ->
    repeat_from fuel repetitions i fn s
    = Some (sequence (map fn (seqZ i (repetitions - i))) s).
Proof.
  intros Hmax. induction fuel as [|fuel IH]; intros i s Hi Hfuel; [lia|].
  cbn [repeat_from]. destruct (Z.ltb_spec i repetitions) as [Hlt | Hge].
  - rewrite seqZ_cons by lia. cbn [map sequence]. unfold bind at 1.
    destruct (fn i s) as [[] s' | e s' | s']; try reflexivity.
    rewrite int_incr_in_range by lia.
    rewrite IH by lia.
    replace (Z.succ i) with (i + 1) by lia.
    replace (Z.pred (repetitions - i)) with (repetitions - (i + 1)) by lia.
    reflexivity.
  - rewrite seqZ_nil by lia. reflexivity.
Qed.

Lemma sequence_lambda (l : list Z) (c : console) :
  exists c',
    sequence (map lambda l) c = Ok tt c' /\
    cout c' = cout c ++ concat (map (fun i => [TInt i; TStr "\n"]) l) /\
    cin c' = cin c /\ cerr c' = cerr c.
Proof.
  revert c. induction l as [|i l IH]; intros c.
  - exists c. cbn. rewrite app_nil_r. repeat split.
  - cbn [map sequence]. unfold bind at 1. cbn.
    destruct (IH (print [TInt i; TStr "\n"] c))
      as (c' & Hrun & Hout & Hin & He).
    exists c'. split; [exact Hrun|]. split; [|split; assumption].
    rewrite Hout. cbn. rewrite <- app_assoc. reflexivity.
Qed.

(** X2: with enough fuel, [repeat1] calls [fn] on 0, 1, ...,
    [repetitions - 1], in this order, stops at the first call that does
    not end normally, and calls nothing when [repetitions] is zero or
    negative; [repeat2], [repeat3] and [repeat4] do the same.  With the
    printing lambda the numbers come out in order. *)
Theorem repeat_calls_in_order {S} (fn : Z -> M S unit) (repetitions : Z)
        (fuel : nat) (s : S) (c : console) :
  repetitions <= INT_MAX ->
  (Z.to_nat repetitions < fuel)%nat ->
  repeat1 fuel repetitions fn s
  = Some (sequence (map fn (seqZ 0 repetitions)) s) /\
  repeat2 fuel repetitions fn s = repeat1 fuel repetitions fn s /\
  repeat3 fuel repetitions fn s = repeat1 fuel repetitions fn s /\
  repeat4 fuel repetitions fn s = repeat1 fuel repetitions fn s /\
  (repetitions <= 0 -> repeat1 fuel repetitions fn s = Some (Ok tt s)) /\
  (exists c',
      repeat1 fuel repetitions lambda c = Some (Ok tt c') /\
      cout c'
      = cout c ++ concat (map (fun i => [TInt i; TStr "\n"])
                              (seqZ 0 repetitions))).
Proof.
  intros Hmax Hfuel.
  assert (Hspec : forall T (g : Z -> M T unit) (t : T),
             repeat1 fuel repetitions g t
             = Some (sequence (map g (seqZ 0 repetitions)) t)).
  { intros T g t. unfold repeat1.
    rewrite repeat_from_spec; rewrite ?Z.sub_0_r;
      try assumption; [reflexivity | unfold INT_MIN; lia]. }
  split; [apply Hspec|]. do 3 (split; [reflexivity|]). split.
  - intros Hle. rewrite Hspec, seqZ_nil by exact Hle. reflexivity.
  - destruct (sequence_lambda (seqZ 0 repetitions) c) as (c' & Hrun & Hout & _).
    exists c'. rewrite Hspec, Hrun. split; [reflexivity | exact Hout].
Qed.

Lemma repeat_three_times :
  3 <= INT_MAX /\ (Z.to_nat 3 < 4)%nat /\
  exists c',
    repeat1 4 3 lambda no_input = Some (Ok tt c') /\
    cout c' = [TInt 0; TStr "\n"; TInt 1; TStr "\n"; TInt 2; TStr "\n"].
Proof.
  assert (H3 : 3 <= INT_MAX) by (vm_compute; discriminate).
  assert (H4 : (Z.to_nat 3 < 4)%nat) by (cbn; lia).
  split; [exact H3|]. split; [exact H4|].
  destruct (repeat_calls_in_order lambda 3 4 no_input no_input H3 H4)
    as (_ & _ & _ & _ & _ & c' & Hrun & Hout).
  exists c'. exact (conj Hrun Hout).
Defined.

End Repeat.

(** ** [isEven] *)

Section Even.
Import Lambdas.

(** X3: [isEven] is true exactly of the even numbers, the negative ones
    included, and [all_of] with it is true exactly of the lists of even
    numbers; [main] prints 0 for [arr2]. *)
Theorem isEven_exact (i : Z) (l : list Z) (c : console) :
  (isEven i = true <-> exists k, i = 2 * k) /\
  (all_of l isEven = true <-> Forall (fun x => exists k, x = 2 * k) l) /\
  cout (all_even_example c)
  = cout c ++ [TStr "\nPrint 1 if all elements of arr2 are 0...\n";
               TInt 0; TStr "\n"].
Proof.
  assert (Heven : forall x, isEven x = true <-> exists k, x = 2 * k).
  { intros x. unfold isEven. rewrite <- Zquot.Zeven_rem.
    apply Z.even_spec. }
  split; [apply Heven|]. split.
  - unfold all_of. rewrite forallb_forall, Forall_forall.
    split; intros H x Hx.
    + apply Heven, H, list_elem_of_In, Hx.
    + apply Heven, H, list_elem_of_In, Hx.
  - cbn. rewrite <- app_assoc. reflexivity.
Qed.

End Even.

(** ** The generic lambda and its static counters *)

Section GenericLambda.
Import Lambdas.

Lemma to_int_incr (z : Z) : int_incr (to_int z) = to_int (z + 1).
Proof.
  unfold int_incr, to_int.
  replace ((z + 2 ^ 31) mod 2 ^ 32 - 2 ^ 31 + 1 + 2 ^ 31)
    with ((z + 2 ^ 31) mod 2 ^ 32 + 1) by lia.
  rewrite Zplus_mod_idemp_l. do 2 f_equal. lia.
Qed.

Lemma iter_int_incr (n : nat) (a : Z) :
  Nat.iter n int_incr (to_int a) = to_int (a + Z.of_nat n).
Proof.
  induction n as [|n IH]; [cbn; f_equal; lia|].
  rewrite Nat.iter_succ, IH, to_int_incr. f_equal. lia.
Qed.

Lemma earlier_calls_cons (value a : argument) (history : list argument) :
  earlier_calls value (a :: history)
  = ((if same_kind value a then 1 else 0) + earlier_calls value history)%nat.
Proof.
  unfold earlier_calls. destruct (same_kind value a) eqn:Hk.
  - rewrite filter_cons_True by exact Hk. reflexivity.
  - rewrite filter_cons_False by (rewrite Hk; discriminate). reflexivity.
Qed.

Lemma earlier_calls_le (value : argument) (history : list argument) :
  (earlier_calls value history <= length history)%nat.
Proof. apply length_filter. Qed.

(** After any calls, each counter has been incremented once per call of
    its own kind. *)
Lemma print_calls_statics (history : list argument) :
  forall (k : statics) (c : console) (s : string) (z : Z),
    fst (print_calls history (k, c))
    = mkStatics
        (Nat.iter (earlier_calls (AString s) history) int_incr
                  (callCount_string k))
        (Nat.iter (earlier_calls (AnInt z) history) int_incr
                  (callCount_int k)).
Proof.
  induction history as [|a history IH]; intros k c s z.
  - destruct k. reflexivity.
  - unfold print_calls. cbn [fold_left]. fold (print_calls history).
    rewrite !earlier_calls_cons.
    destruct a as [s' | z']; cbn [print_generic same_kind];
      rewrite (IH _ _ s z); cbn [callCount_string callCount_int Nat.add];
      rewrite ?Nat.iter_succ_r; reflexivity.
Qed.

(** X4: whatever calls came before, a call of the generic lambda prints
    the number of earlier calls with an argument of the same type (a
    string or an [int]), then the argument: the two instantiations count
    apart.  For [main]'s six calls the numbers are 0 1, 0 1 2, and 2. *)
Theorem generic_lambda_counts_per_type
        (history : list argument) (value : argument) (c : console) :
  let before := print_calls history (mkStatics 0 0, c) in
  print_calls (history ++ [value]) (mkStatics 0 0, c)
  = print_generic value before /\
  cout (snd (print_generic value before))
  = cout (snd before)
      ++ [TInt (to_int (Z.of_nat (earlier_calls value history)));
          TStr ": "; shown value; TStr "\n"] /\
  (Z.of_nat (length history) <= INT_MAX ->
   to_int (Z.of_nat (earlier_calls value history))
   = Z.of_nat (earlier_calls value history)) /\
  cout (snd (generic_lambda_example c))
  = cout c ++ [TInt 0; TStr ": "; TStr "hello"; TStr "\n";
               TInt 1; TStr ": "; TStr "hello"; TStr "\n";
               TInt 0; TStr ": "; TInt 1; TStr "\n";
               TInt 1; TStr ": "; TInt 2; TStr "\n";
               TInt 2; TStr ": "; TInt 3; TStr "\n";
               TInt 2; TStr ": "; TStr "ding"; TStr "\n"].
Proof.
  intros before. split; [|split; [|split]].
  - unfold print_calls. rewrite fold_left_app. reflexivity.
  - pose proof (print_calls_statics history (mkStatics 0 0) c) as Hk.
    fold before in Hk. destruct before as [k c']. cbn [fst snd] in *.
    destruct value as [s | z]; cbn [print_generic snd cout print shown].
    + rewrite (Hk s 0). cbn [callCount_string].
      change 0 with (to_int 0) at 1. rewrite iter_int_incr. reflexivity.
    + rewrite (Hk EmptyString z). cbn [callCount_int].
      change 0 with (to_int 0) at 1. rewrite iter_int_incr. reflexivity.
  - intros Hlen. apply to_int_in_range.
    pose proof (earlier_calls_le value history).
    unfold in_int, INT_MIN, INT_MAX in *. lia.
  - cbn. rewrite <- ?app_assoc. reflexivity.
Qed.

Lemma generic_lambda_third_string :
  let history := [AString "hello"; AString "hello"; AnInt 1] in
  Z.of_nat (length history) <= INT_MAX /\
  to_int (Z.of_nat (earlier_calls (AString "ding") history)) = 2.
Proof.
  intros history.
  assert (H : Z.of_nat (length history) <= INT_MAX)
    by (vm_compute; discriminate).
  split; [exact H|].
  destruct (generic_lambda_counts_per_type history (AString "ding") no_input)
    as (_ & _ & Hexact & _).
  rewrite (Hexact H). reflexivity.
Defined.

End GenericLambda.

(** ** More on extraction *)

Section Extraction.
Import FunctionExamples InputOutput.

Lemma skipws_leading (ws s : list ascii) :
  Forall (fun a => isspace a = true) ws -> skipws (ws ++ s) = skipws s.
Proof.
  induction 1 as [|a ws Ha _ IH]; [reflexivity|].
  cbn. rewrite Ha. exact IH.
Qed.

Lemma extract_int_leading_whitespace (v : Z) (ws : list ascii) (c : console) :
  cin_fail c = false ->
  Forall (fun a => isspace a = true) ws ->
  extract_int v (typed_before ws c) = extract_int v c.
Proof.
  intros Hgood Hws. unfold extract_int, typed_before. cbn.
  rewrite Hgood, (skipws_leading ws (cin c) Hws). reflexivity.
Qed.

(** X5: spaces, tabs and newlines typed before a number change nothing:
    an extraction returns the same value and leaves the same console,
    and so do [getValueFromUser] and the whole of the input/output
    example. *)
Theorem leading_whitespace_is_discarded
        (v : Z) (ws : list ascii) (c : console) :
  cin_fail c = false ->
  Forall (fun a => isspace a = true) ws ->
  extract_int v (typed_before ws c) = extract_int v c /\
  getValueFromUser (typed_before ws c) = getValueFromUser c /\
  main_return_values (typed_before ws c) = main_return_values c /\
  main_extractions (typed_before ws c) = main_extractions c.
Proof.
  intros Hgood Hws.
  assert (Hprint : forall ts,
             extract_int 0 (print ts (typed_before ws c))
             = extract_int 0 (print ts c)).
  { intros ts.
    exact (extract_int_leading_whitespace 0 ws (print ts c) Hgood Hws). }
  split; [apply extract_int_leading_whitespace; assumption|].
  split; [apply Hprint|]. split.
  - unfold main_return_values, getValueFromUser. rewrite Hprint. reflexivity.
  - unfold main_extractions. rewrite Hprint. reflexivity.
Qed.

Lemma leading_whitespace_newline_3 :
  let c := console_of_input "3 4" in
  let ws := list_ascii_of_string " " in
  cin_fail c = false /\ Forall (fun a => isspace a = true) ws /\
  main_extractions (typed_before ws c) = main_extractions c.
Proof.
  intros c ws.
  assert (Hgood : cin_fail c = false) by reflexivity.
  assert (Hws : Forall (fun a => isspace a = true) ws)
    by (repeat constructor).
  split; [exact Hgood|]. split; [exact Hws|].
  exact (proj2 (proj2 (proj2
           (leading_whitespace_is_discarded 0 ws c Hgood Hws)))).
Defined.






(** X7: [printDouble] prints the value and its double computed in [int];
    what it prints is the true double exactly when the value lies
    between -2^30 and 2^30 - 1. *)
Theorem printDouble_exact_iff (value : Z) (c : console) :
  cout (printDouble value c)
  = cout c ++ [TInt value; TStr " doubled is: "; TInt (int_mul value 2);
               TStr "\n"] /\
  (int_mul value 2 = 2 * value <-> - 2 ^ 30 <= value <= 2 ^ 30 - 1).
Proof.
  split; [reflexivity|]. unfold int_mul. split.
  - intros Heq. pose proof (to_int_is_int (value * 2)) as Hr.
    rewrite Heq in Hr. unfold in_int, INT_MIN, INT_MAX in Hr. lia.
  - intros Hr. rewrite to_int_in_range; [lia|].
    unfold in_int, INT_MIN, INT_MAX. lia.
Qed.

End Extraction.

(** ** The dangling pointer *)

Section Pointer.
Import DanglingPointer.

(** X8: after [delete p], reading [*p], writing [*p] and deleting [p]
    again are all undefined, on every store, while every other object is
    as it was; [main] is undefined at its read of [*ptr], before it has
    printed anything. *)
Theorem use_after_delete_is_undefined
        (m : machine) (p : loc) (v w : Z) :
  mem m !! p = Some v ->
  let m' := mkMachine (delete p (mem m)) (con m) in
  free p m = Ok tt m' /\
  (free p;; load p) m = Undefined m' /\
  (free p;; assign p w) m = Undefined m' /\
  (free p;; free p) m = Undefined m' /\
  (forall q, q <> p -> mem m' !! q = mem m !! q) /\
  (forall garbage c, main garbage (initial c) = Undefined (initial c)).
Proof.
  intros Hp m'.
  assert (Hgone : mem m' !! p = None) by apply lookup_delete_eq.
  assert (Hfree : free p m = Ok tt m') by exact (free_spec p v m Hp).
  split; [exact Hfree|]. unfold bind. rewrite Hfree.
  split; [apply load_dangling; exact Hgone|].
  split; [unfold assign; rewrite Hgone; reflexivity|].
  split; [unfold free; rewrite Hgone; reflexivity|].
  split; [intros q Hq; apply lookup_delete_ne; congruence|].
  intros garbage c. reflexivity.
Qed.

Lemma use_after_delete_of_seven :
  mem (mkMachine {[1%positive := 7]} no_input) !! 1%positive = Some 7 /\
  (free 1%positive;; load 1%positive) (mkMachine {[1%positive := 7]} no_input)
  = Undefined (mkMachine (delete 1%positive {[1%positive := 7]}) no_input).
Proof.
  assert (H : mem (mkMachine {[1%positive := 7]} no_input) !! 1%positive
              = Some 7) by reflexivity.
  split; [exact H|].
  exact (proj1 (proj2 (use_after_delete_is_undefined _ 1%positive 7 0 H))).
Defined.

End Pointer.

(** ** Vectors: reading back, reserving, growing *)

Section VectorMore.
Import Reserve UnsignedArithmetic.

(** X9: after [push_back], whether the storage was reallocated or not,
    the new element is read back at the old size by the checked and the
    unchecked access alike, every element in front of it is where it
    was, and one place further the checked access throws. *)
Theorem push_back_then_read {St} (x : Z) (v : vector) (i : nat) (s : St) :
  at_ (push_back x v) (size v) s = Ok x s /\
  subscript (push_back x v) (size v) s = Ok x s /\
  ((i < size v)%nat -> at_ (push_back x v) i s = at_ v i s) /\
  at_ (push_back x v) (S (size v)) s
  = Raised (out_of_range (S (size v)) (S (size v))) s.
Proof.
  assert (Hlast : elems (push_back x v) !! size v = Some x).
  { rewrite elems_push_back. unfold size.
    rewrite lookup_app_r by lia. rewrite Nat.sub_diag. reflexivity. }
  assert (Hsub : subscript (push_back x v) (size v) s = Ok x s).
  { unfold subscript. rewrite Hlast. reflexivity. }
  split; [|split; [exact Hsub|split]].
  - unfold at_. rewrite size_push_back.
    destruct (Nat.leb_spec (S (size v)) (size v)); [lia | exact Hsub].
  - intros Hi. unfold at_, subscript. rewrite size_push_back.
    destruct (Nat.leb_spec (S (size v)) i); [lia|].
    destruct (Nat.leb_spec (size v) i); [lia|].
    rewrite elems_push_back, lookup_app_l by exact Hi. reflexivity.
  - rewrite at_out_of_range by (rewrite size_push_back; lia).
    rewrite size_push_back. reflexivity.
Qed.

Lemma push_back_then_read_primes :
  (3 < size MemoryLayout.data0)%nat /\
  at_ (push_back 21 MemoryLayout.data0) 3 no_input
  = at_ MemoryLayout.data0 3 no_input /\
  at_ (push_back 21 MemoryLayout.data0) 8 no_input = Ok 21 no_input.
Proof.
  assert (H : (3 < size MemoryLayout.data0)%nat) by (cbn; lia).
  destruct (push_back_then_read 21 MemoryLayout.data0 3 no_input)
    as (Hlast & _ & Hfront & _).
  exact (conj H (conj (Hfront H) Hlast)).
Defined.

Lemma push_many_succ (k : nat) (x : Z) (v : vector) :
  push_many (S k) x v = push_back x (push_many k x v).
Proof. reflexivity. Qed.

Lemma push_many_elems (k : nat) (x : Z) (v : vector) :
  elems (push_many k x v) = elems v ++ replicate k x.
Proof.
  induction k as [|k IH]; [cbn; rewrite app_nil_r; reflexivity|].
  rewrite push_many_succ, elems_push_back, IH, <- app_assoc.
  f_equal. change [x] with (replicate 1 x).
  rewrite <- replicate_add. f_equal. lia.
Qed.

Lemma push_many_size (k : nat) (x : Z) (v : vector) :
  size (push_many k x v) = (size v + k)%nat.
Proof.
  unfold size. rewrite push_many_elems, length_app, length_replicate.
  reflexivity.
Qed.

(** With room for them, [k] more elements leave the capacity alone. *)
Lemma push_many_room (k : nat) (x : Z) (v : vector) :
  (size v + k <= capacity v)%nat ->
  capacity (push_many k x v) = capacity v.
Proof.
  induction k as [|k IH]; intros Hroom; [reflexivity|].
  rewrite push_many_succ, capacity_push_back_room; [apply IH; lia|].
  rewrite push_many_size, IH by lia. lia.
Qed.

Lemma push_loop_spec (fuel : nat) (n x : Z) :
  n <= INT_MAX ->
  forall (i : Z) (v : vector),
    INT_MIN <= i ->
    (Z.to_nat (n - i) < fuel)%nat ->
    push_loop fuel n i x v = Some (push_many (Z.to_nat (n - i)) x v).
Proof.
  intros Hmax. induction fuel as [|fuel IH]; intros i v Hi Hfuel; [lia|].
  cbn [push_loop]. destruct (Z.ltb_spec i n) as [Hlt | Hge].
  - rewrite int_incr_in_range by lia. rewrite IH by lia.
    replace (Z.to_nat (n - i)) with (S (Z.to_nat (n - (i + 1)))) by lia.
    unfold push_many. rewrite Nat.iter_succ_r. reflexivity.
  - replace (Z.to_nat (n - i)) with 0%nat by lia. reflexivity.
Qed.

Lemma reserve_spec (n : nat) (v : vector) :
  elems (reserve n v) = elems v /\
  capacity (reserve n v) = Nat.max (capacity v) n.
Proof.
  unfold reserve. destruct (Nat.ltb_spec (capacity v) n); cbn; split; lia
    || reflexivity.
Qed.



Lemma first_push_grown (x : Z) : grown (push_back x (from_list [])).
Proof.
  unfold grown. cbn. split; [exists 0%nat; reflexivity | lia].
Qed.

Lemma push_back_grown (x : Z) (v : vector) :
  grown v -> grown (push_back x v).
Proof.
  intros ((j & Hj) & Hsize & Hcap). unfold grown.
  rewrite size_push_back.
  destruct (Nat.ltb_spec (size v) (capacity v)) as [Hroom | Hfull].
  - rewrite capacity_push_back_room by exact Hroom.
    split; [exists j; exact Hj | lia].
  - rewrite capacity_push_back_full by lia.
    split; [|lia].
    exists (S j). rewrite Nat.pow_succ_r', <- Hj. lia.
Qed.

Lemma push_many_grown (k : nat) (x : Z) :
  (1 <= k)%nat -> grown (push_many k x (from_list [])).
Proof.
  induction k as [|k IH]; intros Hk; [lia|].
  rewrite push_many_succ. destruct k as [|k].
  - apply first_push_grown.
  - apply push_back_grown, IH. lia.
Qed.

(** X11: the two vectors of the reserve example after their loops, for
    any positive number [n] of elements that an [int] can count: both
    hold [n] twos; the one that reserved has capacity exactly [n]; the
    one that did not has a capacity that is a power of two, at least [n]
    and less than twice [n]. *)
Theorem reserve_example_vectors (n : Z) (fuel : nat) :
  1 <= n <= INT_MAX ->
  (Z.to_nat n < fuel)%nat ->
  exists v1 v2,
    main_vectors fuel n = Some (v1, v2) /\
    elems v1 = replicate (Z.to_nat n) 2 /\
    elems v2 = replicate (Z.to_nat n) 2 /\
    capacity v2 = Z.to_nat n /\
    power_of_two (capacity v1) /\
    (Z.to_nat n <= capacity v1)%nat /\
    (capacity v1 < 2 * Z.to_nat n)%nat.
Proof.
  intros Hn Hfuel. unfold main_vectors.
  assert (Hmin : INT_MIN <= 0) by (unfold INT_MIN; lia).
  assert (Hsz : to_size_t n = n).
  { unfold to_size_t. apply Z.mod_small. unfold INT_MAX in Hn. lia. }
  rewrite !(push_loop_spec fuel n 2 (proj2 Hn) 0 _ Hmin)
    by (rewrite Z.sub_0_r; exact Hfuel).
  rewrite Z.sub_0_r, Hsz.
  eexists _, _. split; [reflexivity|].
  destruct (reserve_spec (Z.to_nat n) (from_list [])) as [Helems Hcap0].
  assert (Hroom : capacity (push_many (Z.to_nat n) 2
                              (reserve (Z.to_nat n) (from_list [])))
                  = capacity (reserve (Z.to_nat n) (from_list []))).
  { apply push_many_room. unfold size. rewrite Helems, Hcap0. cbn. lia. }
  destruct (push_many_grown (Z.to_nat n) 2 ltac:(lia))
    as (Hpow & Hsize & Hlt).
  rewrite push_many_size in Hsize, Hlt. cbn [size from_list elems length] in *.
  split; [rewrite push_many_elems; reflexivity|].
  split; [rewrite push_many_elems, Helems; reflexivity|].
  split; [rewrite Hroom, Hcap0; cbn; lia|].
  split; [exact Hpow|]. lia.
Qed.

Lemma reserve_example_nine :
  1 <= 9 <= INT_MAX /\ (Z.to_nat 9 < 10)%nat /\
  exists v1 v2,
    main_vectors 10 9 = Some (v1, v2) /\
    capacity v2 = Z.to_nat 9 /\
    (Z.to_nat 9 <= capacity v1)%nat /\ (capacity v1 < 2 * Z.to_nat 9)%nat.
Proof.
  assert (Hn : 1 <= 9 <= INT_MAX) by (unfold INT_MAX; lia).
  assert (Hfuel : (Z.to_nat 9 < 10)%nat) by (cbn; lia).
  split; [exact Hn|]. split; [exact Hfuel|].
  destruct (reserve_example_vectors 9 10 Hn Hfuel)
    as (v1 & v2 & Hrun & _ & _ & Hcap2 & _ & Hle & Hlt).
  exists v1, v2. exact (conj Hrun (conj Hcap2 (conj Hle Hlt))).
Defined.

End VectorMore.

(** ** The loop up to the capacity *)

Section ToCapacity.
Import CapacityLoop MemoryLayout.

Lemma print_nil (c : console) : print [] c = c.
Proof. destruct c. unfold print. cbn. rewrite app_nil_r. reflexivity. Qed.

Lemma print_print (a b : list token) (c : console) :
  print b (print a c) = print (a ++ b) c.
Proof. unfold print. cbn. rewrite app_assoc. reflexivity. Qed.

(** From index [i], with the elements [rest] still in front: the loop
    prints them, and then either the capacity is reached or the next
    subscript is past the elements. *)
Lemma values_loop_from (data : vector) (rest : list Z) :
  (size data <= capacity data)%nat ->
  forall (fuel i : nat) (c : console),
    drop i (elems data) = rest ->
    (i <= size data)%nat ->
    (capacity data - i < fuel)%nat ->
    values_loop fuel data i c
    = Some (if (size data <? capacity data)%nat
            then Undefined (print (value_lines i rest) c)
            else Ok tt (print (value_lines i rest) c)).
Proof.
  intros Hinv. induction rest as [|x rest IH]; intros fuel i c Hdrop Hi Hfuel.
  - assert (Hend : i = size data).
    { apply drop_nil_inv in Hdrop. unfold size in *. lia. }
    subst i. destruct fuel as [|fuel]; [lia|]. cbn [values_loop value_lines].
    rewrite print_nil.
    destruct (Nat.ltb_spec (size data) (capacity data)) as [Hroom | Hfull].
    + unfold subscript. rewrite (lookup_ge_None_2 (elems data) (size data))
        by (unfold size; lia).
      reflexivity.
    + reflexivity.
  - assert (Hx : elems data !! i = Some x).
    { rewrite <- (Nat.add_0_r i), <- lookup_drop, Hdrop. reflexivity. }
    assert (Hlt : (i < size data)%nat) by exact (lookup_lt_Some _ _ _ Hx).
    destruct fuel as [|fuel]; [lia|]. cbn [values_loop value_lines].
    destruct (Nat.ltb_spec i (capacity data)); [|lia].
    unfold subscript. rewrite Hx. cbn [ret].
    rewrite (IH fuel (S i)); try lia.
    + rewrite !print_print. reflexivity.
    + rewrite (drop_S _ _ _ Hx) in Hdrop. congruence.
Qed.

(** X12: the loop that reads [data[i]] for every [i] below the capacity
    prints the elements and ends normally exactly when the vector is
    full; with capacity to spare, its first read past the elements is
    undefined, after all elements were printed.  In [main], after
    [push_back], that is the read of [data[9]]. *)
Theorem loop_to_capacity (data : vector) (fuel : nat) (c : console) :
  (size data <= capacity data)%nat ->
  (capacity data < fuel)%nat ->
  (size data = capacity data ->
   values_loop fuel data 0 c
   = Some (Ok tt (print (value_lines 0 (elems data)) c))) /\
  ((size data < capacity data)%nat ->
   values_loop fuel data 0 c
   = Some (Undefined (print (value_lines 0 (elems data)) c))) /\
  ((16 < fuel)%nat ->
   main_values_loop fuel c
   = Some (Undefined
             (print (value_lines 0 [2; 3; 5; 7; 11; 13; 17; 19; 21])
                (print [TStr iterate_header; TEndl] c)))).
Proof.
  intros Hinv Hfuel.
  pose proof (values_loop_from data (elems data) Hinv fuel 0 c eq_refl
                ltac:(lia) ltac:(lia)) as Hrun.
  split; [|split].
  - intros Hfull. rewrite Hrun.
    destruct (Nat.ltb_spec (size data) (capacity data)); [lia | reflexivity].
  - intros Hroom. rewrite Hrun.
    destruct (Nat.ltb_spec (size data) (capacity data)); [reflexivity | lia].
  - intros H16. unfold main_values_loop.
    rewrite (values_loop_from (push_back 21 data0) _ ltac:(cbn; lia)
               fuel 0 _ eq_refl ltac:(lia) ltac:(cbn; lia)).
    reflexivity.
Qed.

Lemma loop_to_capacity_full_vector :
  (size data0 <= capacity data0)%nat /\ (capacity data0 < 9)%nat /\
  values_loop 9 data0 0 no_input
  = Some (Ok tt (print (value_lines 0 (elems data0)) no_input)).
Proof.
  assert (Hinv : (size data0 <= capacity data0)%nat) by (cbn; lia).
  assert (Hfuel : (capacity data0 < 9)%nat) by (cbn; lia).
  split; [exact Hinv|]. split; [exact Hfuel|].
  exact (proj1 (loop_to_capacity data0 9 no_input Hinv Hfuel) eq_refl).
Defined.

End ToCapacity.

(** ** Unsigned arithmetic *)

Section Unsigned.
Import UnsignedLength UnsignedArithmetic.

Lemma ushort_add_1 (x : Z) :
  0 <= x <= USHRT_MAX ->
  ushort_add_assign x 1 = if x =? USHRT_MAX then 0 else x + 1.
Proof.
  unfold USHRT_MAX, ushort_add_assign, int_add, to_ushort. intros Hx.
  rewrite to_int_in_range by (unfold in_int, INT_MIN, INT_MAX; lia).
  destruct (Z.eqb_spec x (2 ^ 16 - 1)) as [-> | Hne]; [reflexivity|].
  apply Z.mod_small. lia.
Qed.

Lemma ushort_sub_1 (x : Z) :
  0 <= x <= USHRT_MAX ->
  ushort_sub_assign x 1 = if x =? 0 then USHRT_MAX else x - 1.
Proof.
  unfold USHRT_MAX, ushort_sub_assign, int_sub, to_ushort. intros Hx.
  rewrite to_int_in_range by (unfold in_int, INT_MIN, INT_MAX; lia).
  destruct (Z.eqb_spec x 0) as [-> | Hne]; [reflexivity|].
  apply Z.mod_small. lia.
Qed.

(** X13: on an [unsigned short], [x += 1] and [x -= 1] undo each other
    for every value, the ends of the range included: incrementing gives
    0 exactly at 65535, decrementing gives 65535 exactly at 0, and the
    result is always in the range. *)
Theorem unsigned_short_wraps_both_ways (x : Z) :
  0 <= x <= USHRT_MAX ->
  ushort_sub_assign (ushort_add_assign x 1) 1 = x /\
  ushort_add_assign (ushort_sub_assign x 1) 1 = x /\
  (ushort_add_assign x 1 = 0 <-> x = USHRT_MAX) /\
  (ushort_sub_assign x 1 = USHRT_MAX <-> x = 0) /\
  0 <= ushort_add_assign x 1 <= USHRT_MAX /\
  0 <= ushort_sub_assign x 1 <= USHRT_MAX.
Proof.
  intros Hx.
  pose proof (ushort_add_1 x Hx) as Hadd.
  pose proof (ushort_sub_1 x Hx) as Hsub.
  assert (Hra : 0 <= ushort_add_assign x 1 <= USHRT_MAX).
  { rewrite Hadd. unfold USHRT_MAX in *.
    destruct (Z.eqb_spec x (2 ^ 16 - 1)); lia. }
  assert (Hrs : 0 <= ushort_sub_assign x 1 <= USHRT_MAX).
  { rewrite Hsub. unfold USHRT_MAX in *. destruct (Z.eqb_spec x 0); lia. }
  split; [|split; [|split; [|split; [|split; assumption]]]].
  - rewrite (ushort_sub_1 _ Hra), Hadd. unfold USHRT_MAX in *.
    destruct (Z.eqb_spec x (2 ^ 16 - 1)) as [-> | Hne]; [reflexivity|].
    destruct (Z.eqb_spec (x + 1) 0); lia.
  - rewrite (ushort_add_1 _ Hrs), Hsub. unfold USHRT_MAX in *.
    destruct (Z.eqb_spec x 0) as [-> | Hne]; [reflexivity|].
    destruct (Z.eqb_spec (x - 1) (2 ^ 16 - 1)); lia.
  - rewrite Hadd. unfold USHRT_MAX in *.
    destruct (Z.eqb_spec x (2 ^ 16 - 1)); lia.
  - rewrite Hsub. unfold USHRT_MAX in *. destruct (Z.eqb_spec x 0); lia.
Qed.

Lemma unsigned_short_wraps_at_the_top :
  0 <= 65535 <= USHRT_MAX /\
  ushort_add_assign 65535 1 = 0 /\
  ushort_sub_assign (ushort_add_assign 65535 1) 1 = 65535.
Proof.
  assert (H : 0 <= 65535 <= USHRT_MAX) by (unfold USHRT_MAX; lia).
  split; [exact H|].
  destruct (unsigned_short_wraps_both_ways 65535 H)
    as (Hround & _ & Hzero & _).
  split; [apply Hzero; reflexivity | exact Hround].
Defined.

(** X14: [u - s] with [u] unsigned and [s] an [int] is never negative;
    it is the difference exactly when [s] does not exceed [u] (and the
    difference fits), and 2^32 more than the difference when [s] is the
    larger; [main] prints 4294967295 for 2 - 3, after 0, 65535 and
    65456 for the [unsigned short]. *)
Theorem unsigned_minus_signed (u s : Z) (c : console) :
  0 <= u < 2 ^ 32 -> in_int s ->
  0 <= uint_minus_int u s < 2 ^ 32 /\
  (uint_minus_int u s = u - s <-> 0 <= u - s < 2 ^ 32) /\
  (u < s -> uint_minus_int u s = u - s + 2 ^ 32) /\
  cout (unsigned_dangers c)
  = cout c ++ [TStr "Unsigned integer dangers:\n";
               TStr "After incrementing, x = "; TInt 0; TStr "\n";
               TStr "After decrementing, x = "; TInt 65535; TStr "\n";
               TStr "After setting x to a negative value, x = ";
               TInt 65456; TStr "\n";
               TStr "Unsigned - signed integer: "; TInt 4294967295;
               TStr "\n"].
Proof.
  intros Hu Hs. unfold in_int, INT_MIN, INT_MAX in Hs.
  assert (Heq : uint_minus_int u s = (u - s) mod 2 ^ 32).
  { unfold uint_minus_int, to_uint. rewrite Zminus_mod_idemp_r. reflexivity. }
  pose proof (Z.mod_pos_bound (u - s) (2 ^ 32) ltac:(lia)) as Hb.
  split; [rewrite Heq; exact Hb|]. split; [|split].
  - rewrite Heq. split.
    + intros H. rewrite <- H. exact Hb.
    + intros H. apply Z.mod_small. exact H.
  - intros Hlt. rewrite Heq.
    rewrite <- (Z_mod_plus_full (u - s) 1 (2 ^ 32)).
    rewrite Z.mod_small by lia. lia.
  - cbn. rewrite <- ?app_assoc. reflexivity.
Qed.

Lemma unsigned_minus_signed_2_3 :
  0 <= 2 < 2 ^ 32 /\ in_int 3 /\ uint_minus_int 2 3 = 2 - 3 + 2 ^ 32.
Proof.
  assert (Hu : 0 <= 2 < 2 ^ 32) by lia.
  assert (Hs : in_int 3) by (unfold in_int, INT_MIN, INT_MAX; lia).
  split; [exact Hu|]. split; [exact Hs|].
  destruct (unsigned_minus_signed 2 3 no_input Hu Hs) as (_ & _ & Hwrap & _).
  apply Hwrap. lia.
Defined.

(** X15: for an index inside the vector, the subscript with a
    [std::size_t], the subscript with an [int], [data()] with an [int]
    and [at] all give the same element; for a negative [int], the
    subscript converts it to an index far past the end and [data()]
    steps in front of the storage: both are undefined, and neither
    throws.  [main], with index 3 on the primes, prints 7 four times. *)
Theorem access_with_an_int_index {St} (v : vector) (i : Z) (s : St)
        (c : console) :
  Z.of_nat (size v) < 2 ^ 63 -> in_int i ->
  (0 <= i < Z.of_nat (size v) ->
   exists x,
     elems v !! Z.to_nat i = Some x /\
     subscript v (Z.to_nat i) s = Ok x s /\
     subscript_int v i s = Ok x s /\
     data_subscript v i s = Ok x s /\
     at_ v (Z.to_nat i) s = Ok x s) /\
  (i < 0 ->
   subscript_int v i s = Undefined s /\ data_subscript v i s = Undefined s) /\
  (exists f',
      main_access_examples (mkFrame prime0 c) = Ok tt f' /\
      prime f' = prime0 /\
      cout (io f')
      = cout c ++ [TStr "\nVector access examples:\n";
                   TInt 7; TStr "\n"; TInt 7; TStr "\n";
                   TInt 7; TStr "\n"; TInt 7; TStr "\n"]).
Proof.
  intros Hsize Hi. unfold in_int, INT_MIN, INT_MAX in Hi.
  split; [|split].
  - intros Hin.
    destruct (at_in_range v (Z.to_nat i) s ltac:(lia)) as (x & Hx & Hat).
    assert (Hsub : subscript v (Z.to_nat i) s = Ok x s)
      by (unfold subscript; rewrite Hx; reflexivity).
    exists x. split; [exact Hx|]. split; [exact Hsub|]. split; [|split].
    + unfold subscript_int, to_size_t. rewrite Z.mod_small by lia. exact Hsub.
    + unfold data_subscript.
      destruct (Z.ltb_spec i 0); [lia | exact Hsub].
    + exact Hat.
  - intros Hneg. split.
    + unfold subscript_int, to_size_t. apply subscript_out_of_range.
      rewrite <- (Z_mod_plus_full i 1 (2 ^ 64)).
      rewrite Z.mod_small by lia. lia.
    + unfold data_subscript.
      destruct (Z.ltb_spec i 0); [reflexivity | lia].
  - eexists. split; [reflexivity|]. split; [reflexivity|].
    cbn. rewrite <- ?app_assoc. reflexivity.
Qed.

Lemma access_with_minus_one :
  Z.of_nat (size prime0) < 2 ^ 63 /\ in_int (-1) /\
  subscript_int prime0 (-1) no_input = Undefined no_input /\
  data_subscript prime0 (-1) no_input = Undefined no_input.
Proof.
  assert (Hsize : Z.of_nat (size prime0) < 2 ^ 63) by (cbn; lia).
  assert (Hi : in_int (-1)) by (unfold in_int, INT_MIN, INT_MAX; lia).
  split; [exact Hsize|]. split; [exact Hi|].
  destruct (access_with_an_int_index prime0 (-1) no_input no_input Hsize Hi)
    as (_ & Hneg & _).
  apply Hneg. lia.
Defined.

End Unsigned.
